(** * FixedString<N>: a shallow embedding of include/fixed_string.h

    The class [FixedString<N>] stores a NUL-terminated string inline in a
    [char Data[N]] buffer.  This development embeds the header as pure
    functions over byte lists and proves the properties the documentation
    states about assignment, comparison, conversion and concatenation.

    Modelling conventions
    - [char] is [Byte.byte]; the buffer [Data] is a [list byte] whose length
      is the template parameter [N].
    - [size_t] values are [Z] with the 64-bit wrap-around written out where
      the source subtracts.
    - A [const char*] is [option (list byte)]: [None] is the null pointer,
      [Some m] points at the readable bytes [m].  Reading through the null
      pointer, or past the readable bytes, is undefined behaviour.
    - A [std::string_view] and a [std::string] are the list of their bytes
      (which may contain NUL bytes).  A view is a value of its own: it does
      not alias the buffer being assigned.
    - [assert] depends on the build: it halts in a debug build and expands
      to nothing in a release build ([NDEBUG]).
    - Every operation returns a [result]: a value, a failed assertion, or
      undefined behaviour. *)

From Stdlib Require Import ZArith Lia.
From Stdlib Require Import Strings.Byte.
From stdpp Require Import base tactics option list numbers strings.

Local Open Scope Z_scope.

(** ** Bytes *)

Abbreviation byte := Byte.byte.

#[global] Instance byte_eq_decision : EqDecision byte := Byte.byte_eq_dec.

(** The terminator ['\0']. *)
Definition NUL : byte := Byte.x00.

(** The value of a [char] read as [unsigned char], as [strcmp] compares. *)
Definition uchar (c : byte) : Z := Z.of_N (Byte.to_N c).

(** The bytes of a string literal, without its terminator. *)
Definition bytes_of (s : string) : list byte := String.list_byte_of_string s.

(** ** Outcomes of running a member function *)

Inductive result (A : Type) : Type :=
  | Done (a : A)                 (* normal return *)
  | AssertFail (msg : string)    (* [assert] halted the program *)
  | Undefined.                   (* undefined behaviour *)

Arguments Done {A} a.
Arguments AssertFail {A} msg.
Arguments Undefined {A}.

#[global] Instance result_ret : MRet result := fun A a => Done a.

#[global] Instance result_bind : MBind result := fun A B k r =>
  match r with
  | Done a => k a
  | AssertFail msg => AssertFail msg
  | Undefined => Undefined
  end.

#[global] Instance result_eq_decision {A} `{EqDecision A} : EqDecision (result A).
Proof. solve_decision. Defined.

(** ** Build configuration and [assert] *)

Inductive build : Set := Debug | Release.

Definition assert_ (bm : build) (cond : bool) (msg : string) : result unit :=
  match bm with
  | Release => Done tt
  | Debug => if cond then Done tt else AssertFail msg
  end.

(** ** [size_t] *)

Definition SIZE_MAX : Z := 2 ^ 64 - 1.

(** Unsigned subtraction, as in [N - 1]. *)
Definition size_sub (a b : Z) : Z := (a - b) mod (SIZE_MAX + 1).

Definition size_of {A} (l : list A) : Z := Z.of_nat (length l).

(** ** Pointers, views and owned strings *)

Definition cptr := option (list byte).
Definition string_view := list byte.
Definition std_string := list byte.

(** A string literal: a pointer to its bytes followed by the terminator. *)
Definition literal (s : string) : cptr := Some (bytes_of s ++ [NUL]).

(** [std::string::c_str()]: the bytes followed by a terminator. *)
Definition string_c_str (s : std_string) : cptr := Some (s ++ [NUL]).

(** ** <cstring> on readable byte ranges *)

(** [strlen]: scans for the first NUL; running off the readable bytes is
    undefined. *)
Fixpoint strlen_mem (m : list byte) : result Z :=
  match m with
  | [] => Undefined
  | c :: m' => if decide (c = NUL) then Done 0
               else n ← strlen_mem m'; Done (n + 1)
  end.

Definition strlen (p : cptr) : result Z :=
  match p with
  | None => Undefined
  | Some m => strlen_mem m
  end.

(** [strcmp]: compares as [unsigned char] up to and including the first NUL
    of either side.  Only the sign of the result is specified. *)
Fixpoint strcmp_mem (a b : list byte) : result Z :=
  match a, b with
  | x :: a', y :: b' =>
      if decide (x = y) then
        if decide (x = NUL) then Done 0 else strcmp_mem a' b'
      else Done (if uchar x <? uchar y then -1 else 1)
  | _, _ => Undefined
  end.

Definition strcmp (p q : cptr) : result Z :=
  match p, q with
  | Some a, Some b => strcmp_mem a b
  | _, _ => Undefined
  end.

(** [memcpy(dst, src, n)]: overwrites the first [n] bytes of [dst]; both
    ranges must hold [n] bytes. *)
Definition memcpy (dst src : list byte) (n : Z) : result (list byte) :=
  if decide (0 ≤ n ∧ n ≤ size_of dst ∧ n ≤ size_of src)
  then Done (take (Z.to_nat n) src ++ drop (Z.to_nat n) dst)
  else Undefined.

(** [memset(dst, c, n)]. *)
Definition memset (dst : list byte) (c : byte) (n : Z) : result (list byte) :=
  if decide (0 ≤ n ∧ n ≤ size_of dst)
  then Done (replicate (Z.to_nat n) c ++ drop (Z.to_nat n) dst)
  else Undefined.

(** [dst[i] = c]: a write outside the array is undefined. *)
Definition store (dst : list byte) (i : Z) (c : byte) : result (list byte) :=
  if decide (0 ≤ i ∧ i < size_of dst)
  then Done (<[Z.to_nat i := c]> dst)
  else Undefined.

(** [src[i]]: a read outside the array is undefined. *)
Definition load (src : list byte) (i : Z) : result byte :=
  if decide (0 ≤ i)
  then match src !! Z.to_nat i with
       | Some c => Done c
       | None => Undefined
       end
  else Undefined.

(** [std::string_view] built from a [const char*]: the bytes before the
    terminator. *)
Definition view_of_cptr (p : cptr) : result string_view :=
  match p with
  | None => Undefined
  | Some m => n ← strlen_mem m; Done (take (Z.to_nat n) m)
  end.

(** [std::string] built from a [const char*]. *)
Definition string_of_cptr (p : cptr) : result std_string := view_of_cptr p.

(** [operator+] of a [std::string] and a [const char*]. *)
Definition string_append_cptr (s : std_string) (p : cptr) : result std_string :=
  t ← view_of_cptr p; Done (s ++ t).

(** ** The class *)

(** [char Data[N]] is the only member. *)
Record FixedString : Type := { Data : list byte }.

#[global] Instance FixedString_eq_decision : EqDecision FixedString.
Proof. solve_decision. Defined.

(** The buffer of a [FixedString<N>] holds exactly [N] bytes. *)
Definition has_capacity (N : Z) (fs : FixedString) : Prop :=
  size_of (Data fs) = N.

(** *** Assignment (fixed_string.h, lines 162-189)

    A member function that mutates [*this] takes the old object [self] and
    returns the new one.  A constructor runs on raw storage, whose bytes are
    indeterminate: it takes that storage as [self] too. *)

Definition Assign (bm : build) (N : Z) (self : FixedString) (sv : string_view)
  : result FixedString :=
  assert_ bm (0 <? N) "FixedString capacity must be > 0";;
  assert_ bm (size_of sv <? N) "FixedString: input will be truncated";;
  let copyLen := Z.min (size_of sv) (size_sub N 1) in
  d ← (if 0 <? copyLen then memcpy (Data self) sv copyLen
       else Done (Data self));
  d' ← store d copyLen NUL;
  Done {| Data := d' |}.

Definition Assign_cptr (bm : build) (N : Z) (self : FixedString) (str : cptr)
  : result FixedString :=
  match str with
  | None => d ← store (Data self) 0 NUL; Done {| Data := d |}
  | Some _ => sv ← view_of_cptr str; Assign bm N self sv
  end.

(** *** Constructors and assignment operators (lines 49-98) *)

Definition FixedString_default (N : Z) (self : FixedString) : result FixedString :=
  d ← memset (Data self) NUL N; Done {| Data := d |}.

Definition FixedString_copy (other : FixedString) : FixedString :=
  {| Data := Data other |}.

Definition FixedString_cptr (bm : build) (N : Z) (self : FixedString) (str : cptr)
  : result FixedString := Assign_cptr bm N self str.

Definition FixedString_string (bm : build) (N : Z) (self : FixedString)
  (str : std_string) : result FixedString :=
  Assign_cptr bm N self (string_c_str str).

Definition FixedString_sv (bm : build) (N : Z) (self : FixedString)
  (sv : string_view) : result FixedString := Assign bm N self sv.

Definition assign_copy (self other : FixedString) : FixedString :=
  {| Data := Data other |}.

Definition assign_cptr (bm : build) (N : Z) (self : FixedString) (str : cptr)
  : result FixedString := Assign_cptr bm N self str.

Definition assign_string (bm : build) (N : Z) (self : FixedString)
  (str : std_string) : result FixedString :=
  Assign_cptr bm N self (string_c_str str).

Definition assign_sv (bm : build) (N : Z) (self : FixedString)
  (sv : string_view) : result FixedString := Assign bm N self sv.

(** *** Accessors and conversions (lines 194-227) *)

Definition c_str (self : FixedString) : cptr := Some (Data self).

(** [operator const char* ()]: the implicit conversion returns the same
    pointer as [c_str]. *)
Definition to_cptr (self : FixedString) : cptr := Some (Data self).

(** [static constexpr size_t Capacity = N]. *)
Definition Capacity (N : Z) : Z := N.

Definition empty (self : FixedString) : result bool :=
  c ← load (Data self) 0; Done (bool_decide (c = NUL)).

Definition length (self : FixedString) : result Z := strlen (c_str self).

Definition to_string_view (self : FixedString) : result string_view :=
  view_of_cptr (c_str self).

Definition ToString (self : FixedString) : result std_string :=
  string_of_cptr (c_str self).

(** *** Comparison (lines 106-149) *)

Definition op_eq (self other : FixedString) : result bool :=
  r ← strcmp (c_str self) (c_str other); Done (bool_decide (r = 0)).

Definition op_eq_cptr (self : FixedString) (other : cptr) : result bool :=
  match other with
  | None => Done false
  | Some _ => r ← strcmp (c_str self) other; Done (bool_decide (r = 0))
  end.

Definition op_eq_sv (self : FixedString) (other : string_view) : result bool :=
  v ← to_string_view self; Done (bool_decide (v = other)).

Definition op_ne (self other : FixedString) : result bool :=
  b ← op_eq self other; Done (negb b).

Definition op_ne_cptr (self : FixedString) (other : cptr) : result bool :=
  b ← op_eq_cptr self other; Done (negb b).

Definition op_ne_sv (self : FixedString) (other : string_view) : result bool :=
  b ← op_eq_sv self other; Done (negb b).

(** *** Concatenation (lines 246-287) *)

Definition or_empty (p : cptr) : cptr :=
  match p with
  | Some _ => p
  | None => literal ""
  end.

Definition plus_sv_fs (lhs : string_view) (rhs : FixedString) : result std_string :=
  string_append_cptr lhs (c_str rhs).

Definition plus_fs_sv (lhs : FixedString) (rhs : string_view) : result std_string :=
  s ← string_of_cptr (c_str lhs); Done (s ++ rhs).

Definition plus_fs_cptr (lhs : FixedString) (rhs : cptr) : result std_string :=
  s ← string_of_cptr (c_str lhs); string_append_cptr s (or_empty rhs).

Definition plus_cptr_fs (lhs : cptr) (rhs : FixedString) : result std_string :=
  s ← string_of_cptr (or_empty lhs); string_append_cptr s (c_str rhs).

Definition plus_fs_fs (lhs rhs : FixedString) : result std_string :=
  s ← string_of_cptr (c_str lhs); string_append_cptr s (c_str rhs).

(** ** Predicates used in the statements *)

(** The readable bytes [m] start with the C string [s]: the bytes of [s],
    none of them NUL, then a terminator. *)
Definition cstring_at (m s : list byte) : Prop :=
  (NUL ∉ s) ∧ (∃ t, m = s ++ NUL :: t).

(** A pointer a caller may pass where a C string is expected. *)
Definition valid_cstr (p : cptr) : Prop :=
  ∃ m, p = Some m ∧ NUL ∈ m.

(** I1: a terminator lies within the [N] bytes of the buffer. *)
Definition I1 (N : Z) (fs : FixedString) : Prop :=
  ∃ k, 0 ≤ k < N ∧ Data fs !! Z.to_nat k = Some NUL.

(** I2: the bytes before the terminator number at most [N - 1]. *)
Definition I2 (N : Z) (fs : FixedString) : Prop :=
  ∃ L, length fs = Done L ∧ 0 ≤ L ≤ N - 1.

Definition invariant (N : Z) (fs : FixedString) : Prop :=
  has_capacity N fs ∧ I1 N fs ∧ I2 N fs.

(** What [Assign] leaves in the buffer when it copies [c] bytes of [sv]. *)
Definition assigned (c : Z) (self : FixedString) (sv : string_view) : FixedString :=
  {| Data := take (Z.to_nat c) sv ++ NUL :: drop (Z.to_nat (c + 1)) (Data self) |}.

(** The outcome [r] of an operation given an input of length [L]: it
    returns an object that satisfies the invariant, or, in a debug build and
    only for an input that does not fit, the assertion halts the program.
    It is never undefined. *)
Definition establishes (bm : build) (N L : Z) (r : result FixedString) : Prop :=
  match r with
  | Done fs => invariant N fs
  | AssertFail _ => bm = Debug ∧ N ≤ L
  | Undefined => False
  end.

(** ** The specification's reading of a C string

    The bytes of [m] before its first NUL, or all of [m] when it has none.
    This follows the words of the specification (the view over the bytes up
    to the terminator); [view_of_cptr] is what the source computes. *)
Fixpoint up_to_nul (m : list byte) : list byte :=
  match m with
  | [] => []
  | c :: m' => if decide (c = NUL) then [] else c :: up_to_nul m'
  end.

(** The logical content of a pointer operand: a null pointer stands for the
    empty string. *)
Definition cptr_content (p : cptr) : list byte :=
  match p with
  | None => []
  | Some m => up_to_nul m
  end.

(** ** Sample data for the closed statements *)

(** Raw storage of [n] bytes, filled with ['x'] to stand for indeterminate
    memory. *)
Definition raw (n : nat) : FixedString := {| Data := replicate n Byte.x78 |}.

(** An object of capacity [n] holding [s]: the bytes of [s], the terminator,
    and ['y'] bytes after it. *)
Definition holding (n : nat) (s : string) : FixedString :=
  {| Data := take n (bytes_of s ++ NUL :: replicate n Byte.x79) |}.

(** The three bytes ['a'], NUL, ['b']. *)
Definition a_nul_b : list byte := [Byte.x61; NUL; Byte.x62].

(** The six bytes ['a'], NUL, ['c'], ['d'], ['e'], ['f']. *)
Definition a_nul_cdef : list byte :=
  [Byte.x61; NUL; Byte.x63; Byte.x64; Byte.x65; Byte.x66].

(** * Lemmas *)

Create HintDb fstring discriminated.
Create Rewrite HintDb fstring_size.

(** Proves [invariant N fs] for a concrete [fs] whose terminator is at
    offset [k], by evaluation. *)
Ltac invariant_at k :=
  split; [reflexivity | split; exists k; split; first [lia | reflexivity]].

(** Proves [NUL ∉ l] for a concrete list [l]. *)
Ltac nul_free :=
  let H := fresh in
  vm_compute; intros H;
  repeat (apply elem_of_cons in H as [H|H]; [discriminate H|]);
  by apply elem_of_nil in H.

(** ** The monad *)

Lemma bind_Done {A B} (a : A) (k : A → result B) : (Done a ≫= k) = k a.
Proof. reflexivity. Qed.

Lemma bind_Done_inv {A B} (r : result A) (k : A → result B) (b : B) :
  (r ≫= k) = Done b → ∃ a, r = Done a ∧ k a = Done b.
Proof. destruct r as [a| |]; simpl; [eauto | done | done]. Qed.

Lemma assert_Release c msg : assert_ Release c msg = Done tt.
Proof. reflexivity. Qed.

Lemma assert_true bm msg : assert_ bm true msg = Done tt.
Proof. by destruct bm. Qed.

(** ** [size_t] arithmetic *)

Lemma size_of_nonneg {A} (l : list A) : 0 ≤ size_of l.
Proof. unfold size_of. lia. Qed.

Lemma size_of_app {A} (l k : list A) : size_of (l ++ k) = size_of l + size_of k.
Proof. unfold size_of. rewrite length_app. lia. Qed.

Lemma size_of_cons {A} (x : A) (l : list A) : size_of (x :: l) = size_of l + 1.
Proof. unfold size_of. simpl List.length. lia. Qed.

Lemma size_of_nil {A} : size_of (@nil A) = 0.
Proof. reflexivity. Qed.

Lemma take_size_of {A} (l : list A) : take (Z.to_nat (size_of l)) l = l.
Proof. unfold size_of. rewrite Nat2Z.id. apply firstn_all. Qed.

Lemma size_of_take {A} (l : list A) (c : Z) :
  0 ≤ c → c ≤ size_of l → size_of (take (Z.to_nat c) l) = c.
Proof. unfold size_of. intros ??. rewrite length_take. lia. Qed.

Lemma size_sub_1 N : 0 < N → N ≤ SIZE_MAX → size_sub N 1 = N - 1.
Proof. intros ??. unfold size_sub. apply Z.mod_small. lia. Qed.

#[local] Hint Resolve size_of_nonneg not_elem_of_nil : fstring.
#[local] Hint Rewrite @size_of_app @size_of_cons @size_of_nil : fstring_size.

(** ** C strings in memory *)

Section CStrings.
Implicit Types (m s t : list byte) (p : cptr).

Lemma cstring_at_nil t : cstring_at (NUL :: t) [].
Proof. split; [apply not_elem_of_nil | by exists t]. Qed.

Lemma cstring_at_cons c m s :
  c ≠ NUL → cstring_at m s → cstring_at (c :: m) (c :: s).
Proof.
  intros Hc [Hs [t ->]]. split; [|by exists t].
  apply not_elem_of_cons. split; [congruence | done].
Qed.

(** A range that holds a NUL starts with exactly one C string. *)
Lemma cstring_at_exists m : NUL ∈ m → ∃ s, cstring_at m s.
Proof.
  induction m as [|c m IH]; intros Hin; [by apply elem_of_nil in Hin|].
  destruct (decide (c = NUL)) as [->|Hc].
  - exists []. apply cstring_at_nil.
  - apply elem_of_cons in Hin as [?|Hin]; [done|].
    destruct (IH Hin) as [s Hs]. exists (c :: s). by apply cstring_at_cons.
Qed.

Lemma cstring_at_elem m s : cstring_at m s → NUL ∈ m.
Proof. intros [_ [t ->]]. apply elem_of_app. right. left. Qed.

Lemma cstring_at_size m s : cstring_at m s → size_of s < size_of m.
Proof.
  intros [_ [t ->]]. autorewrite with fstring_size.
  pose proof (size_of_nonneg t). lia.
Qed.

Lemma cstring_at_lookup m s :
  cstring_at m s → m !! Z.to_nat (size_of s) = Some NUL.
Proof.
  intros [_ [t ->]]. unfold size_of. rewrite Nat2Z.id.
  by rewrite list_lookup_middle.
Qed.

Lemma cstring_at_take m s : cstring_at m s → take (Z.to_nat (size_of s)) m = s.
Proof.
  intros [_ [t ->]]. unfold size_of. rewrite Nat2Z.id.
  by rewrite take_app_length.
Qed.

(** [strlen] finds the terminator of the C string. *)
Lemma strlen_mem_cstring m s : cstring_at m s → strlen_mem m = Done (size_of s).
Proof.
  intros [Hs [t ->]]. induction s as [|c s IH]; cbn [app strlen_mem].
  - by rewrite decide_True.
  - apply not_elem_of_cons in Hs as [Hc Hs].
    rewrite decide_False by congruence. rewrite IH by done.
    rewrite bind_Done, size_of_cons. done.
Qed.

(** Conversely, when [strlen] returns, the bytes before the offset it
    returns are a C string. *)
Lemma strlen_mem_Done m n :
  strlen_mem m = Done n →
  cstring_at m (take (Z.to_nat n) m) ∧ n = size_of (take (Z.to_nat n) m).
Proof.
  revert n. induction m as [|c m IH]; intros n; cbn [strlen_mem]; [done|].
  destruct (decide (c = NUL)) as [->|Hc].
  - intros [= <-]. split; [apply cstring_at_nil | done].
  - intros H. apply bind_Done_inv in H as (k & Hk & [= <-]).
    destruct (IH k Hk) as [Hs Hsz].
    assert (0 ≤ k) by (rewrite Hsz; apply size_of_nonneg).
    replace (Z.to_nat (k + 1)) with (S (Z.to_nat k)) by lia.
    cbn [take]. split; [by apply cstring_at_cons|].
    rewrite size_of_cons. lia.
Qed.

Lemma view_of_cstring m s : cstring_at m s → view_of_cptr (Some m) = Done s.
Proof.
  intros H. unfold view_of_cptr.
  rewrite (strlen_mem_cstring m s H), bind_Done. by rewrite cstring_at_take.
Qed.

Lemma string_of_cstring m s : cstring_at m s → string_of_cptr (Some m) = Done s.
Proof. apply view_of_cstring. Qed.

Lemma string_append_cstring t m s :
  cstring_at m s → string_append_cptr t (Some m) = Done (t ++ s).
Proof.
  intros H. unfold string_append_cptr. by rewrite (view_of_cstring m s H).
Qed.

(** [up_to_nul] is the C string a range starts with. *)
Lemma up_to_nul_app s t : NUL ∉ s → up_to_nul (s ++ NUL :: t) = s.
Proof.
  induction s as [|c s IH]; intros Hs; cbn [app up_to_nul].
  - by rewrite decide_True.
  - apply not_elem_of_cons in Hs as [Hc Hs].
    rewrite decide_False by congruence. by rewrite IH.
Qed.

Lemma up_to_nul_cstring m s : cstring_at m s → up_to_nul m = s.
Proof. intros [Hs [t ->]]. by apply up_to_nul_app. Qed.

Lemma up_to_nul_id s : NUL ∉ s → up_to_nul s = s.
Proof.
  induction s as [|c s IH]; intros Hs; cbn [up_to_nul]; [done|].
  apply not_elem_of_cons in Hs as [Hc Hs].
  rewrite decide_False by congruence. by rewrite IH.
Qed.

Lemma up_to_nul_terminated s t : up_to_nul (s ++ NUL :: t) = up_to_nul s.
Proof.
  induction s as [|c s IH]; cbn [app up_to_nul]; [by rewrite decide_True|].
  destruct (decide (c = NUL)); [done | by rewrite IH].
Qed.

Lemma cstring_at_up_to_nul m : NUL ∈ m → cstring_at m (up_to_nul m).
Proof.
  intros Hin. destruct (cstring_at_exists m Hin) as [s Hs].
  by rewrite (up_to_nul_cstring m s Hs).
Qed.

Lemma view_of_cptr_up_to_nul m :
  NUL ∈ m → view_of_cptr (Some m) = Done (up_to_nul m).
Proof. intros Hin. by apply view_of_cstring, cstring_at_up_to_nul. Qed.

Lemma string_c_str_valid (str : std_string) : valid_cstr (string_c_str str).
Proof. eexists. split; [done|]. apply elem_of_app. right. left. Qed.

Lemma or_empty_content p :
  p = None ∨ valid_cstr p →
  ∃ m, or_empty p = Some m ∧ cstring_at m (cptr_content p).
Proof.
  intros [->|(m & -> & Hin)].
  - eexists. split; [reflexivity | apply cstring_at_nil].
  - exists m. split; [done | by apply cstring_at_up_to_nul].
Qed.

(** [strcmp] returns, and returns 0 exactly when the two C strings are
    the same. *)
Lemma strcmp_mem_cstring a b sa sb :
  cstring_at a sa → cstring_at b sb →
  ∃ r, strcmp_mem a b = Done r ∧ (r = 0 ↔ sa = sb).
Proof.
  intros [Ha [ta ->]] [Hb [tb ->]]. revert sb Hb.
  induction sa as [|x sa IH]; intros [|y sb] Hb; cbn [app strcmp_mem].
  - exists 0. by rewrite !decide_True.
  - apply not_elem_of_cons in Hb as [Hy _].
    rewrite decide_False by done. eexists. split; [done|].
    split; [by destruct (_ <? _) | done].
  - apply not_elem_of_cons in Ha as [Hx _].
    rewrite decide_False by congruence. eexists. split; [done|].
    split; [by destruct (_ <? _) | done].
  - apply not_elem_of_cons in Ha as [Hx Ha].
    apply not_elem_of_cons in Hb as [Hy Hb].
    destruct (decide (x = y)) as [<-|Hxy].
    + rewrite decide_False by congruence.
      destruct (IH Ha sb Hb) as (r & -> & Hr). exists r. split; [done|].
      rewrite Hr. split; [by intros -> | by intros [= ->]].
    + eexists. split; [done|].
      split; [by destruct (_ <? _) | by intros [= ? ?]].
Qed.
End CStrings.

#[local] Hint Resolve cstring_at_nil cstring_at_up_to_nul string_c_str_valid : fstring.

(** ** Reading an object whose buffer starts with a C string *)

Section Accessors.
Variables (fs : FixedString) (s : list byte).
Hypothesis Hs : cstring_at (Data fs) s.

Lemma length_of_cstring : length fs = Done (size_of s).
Proof. by apply strlen_mem_cstring. Qed.

Lemma to_string_view_of_cstring : to_string_view fs = Done s.
Proof. by apply view_of_cstring. Qed.

Lemma ToString_of_cstring : ToString fs = Done s.
Proof. by apply view_of_cstring. Qed.

Lemma op_eq_cstring_r (a : FixedString) (sa : list byte) :
  cstring_at (Data a) sa → op_eq a fs = Done (bool_decide (sa = s)).
Proof.
  intros Ha. destruct (strcmp_mem_cstring _ _ _ _ Ha Hs) as (r & Hr & Hiff).
  unfold op_eq, strcmp, c_str. rewrite Hr, bind_Done. f_equal.
  by apply bool_decide_ext.
Qed.

Lemma op_eq_cptr_cstring (m sm : list byte) :
  cstring_at m sm → op_eq_cptr fs (Some m) = Done (bool_decide (s = sm)).
Proof.
  intros Hm. destruct (strcmp_mem_cstring _ _ _ _ Hs Hm) as (r & Hr & Hiff).
  unfold op_eq_cptr, strcmp, c_str. rewrite Hr, bind_Done. f_equal.
  by apply bool_decide_ext.
Qed.
End Accessors.

Lemma empty_Done_true fs : empty fs = Done true → cstring_at (Data fs) [].
Proof.
  unfold empty, load. rewrite decide_True by lia. change (Z.to_nat 0) with 0%nat.
  destruct fs as [[|c rest]]; cbn [Data lookup list_lookup]; [done|].
  rewrite bind_Done. intros [= Hc]. apply bool_decide_eq_true in Hc as ->.
  auto with fstring.
Qed.

(** ** The invariant, from a terminator in the buffer *)

Lemma invariant_of_terminated N fs :
  has_capacity N fs → NUL ∈ Data fs → invariant N fs.
Proof.
  intros Hcap Hin. destruct (cstring_at_exists _ Hin) as [s Hs].
  pose proof (cstring_at_size _ _ Hs) as Hsz. pose proof (size_of_nonneg s).
  unfold has_capacity in Hcap.
  split; [done|]. split.
  - exists (size_of s). split; [lia | by apply cstring_at_lookup].
  - exists (size_of s). split; [by apply length_of_cstring | lia].
Qed.

Lemma invariant_terminated N fs : invariant N fs → NUL ∈ Data fs.
Proof.
  intros (_ & (k & _ & Hk) & _). by apply list_elem_of_lookup_2 in Hk.
Qed.

Lemma invariant_cstring N fs :
  invariant N fs → ∃ s, cstring_at (Data fs) s ∧ size_of s ≤ N - 1.
Proof.
  intros Hinv. pose proof (invariant_terminated _ _ Hinv) as Hin.
  destruct (cstring_at_exists _ Hin) as [s Hs]. exists s. split; [done|].
  destruct Hinv as (Hcap & _). unfold has_capacity in Hcap.
  pose proof (cstring_at_size _ _ Hs). lia.
Qed.

Lemma establishes_mono bm N L L' r :
  L ≤ L' → establishes bm N L r → establishes bm N L' r.
Proof.
  intros HL. destruct r; simpl; [done | | done].
  intros [??]. split; [done | lia].
Qed.

(** ** The buffer [Assign] writes *)

Lemma insert_after_copy (data sv : list byte) (c : nat) (x : byte) :
  (c ≤ List.length sv)%nat → (c < List.length data)%nat →
  <[c := x]> (take c sv ++ drop c data) = take c sv ++ x :: drop (S c) data.
Proof.
  intros Hsv Hdata.
  assert (List.length (take c sv) = c) as Hlen by (rewrite length_take; lia).
  rewrite insert_take_drop by (rewrite length_app, length_drop; lia).
  rewrite take_app_length' by done.
  rewrite drop_app_ge by lia. rewrite drop_drop.
  do 3 f_equal. lia.
Qed.

(** The two writes of [Assign]: [memcpy] of [c] bytes when [c > 0], then
    the terminator at offset [c]. *)
Lemma copy_and_terminate (data sv : list byte) (c : Z) :
  0 ≤ c → c ≤ size_of sv → c < size_of data →
  ((if 0 <? c then memcpy data sv c else Done data) ≫= λ d,
     store d c NUL ≫= λ d', Done {| Data := d' |})
  = Done (assigned c {| Data := data |} sv).
Proof.
  unfold size_of, assigned. intros H0 Hsv Hdata. cbn [Data].
  replace (Z.to_nat (c + 1)) with (S (Z.to_nat c)) by lia.
  destruct (0 <? c) eqn:Hc.
  - unfold memcpy, size_of. rewrite decide_True by lia. rewrite bind_Done.
    unfold store, size_of.
    rewrite decide_True; [|rewrite length_app, length_take, length_drop; lia].
    rewrite bind_Done. rewrite insert_after_copy by lia. done.
  - apply Z.ltb_ge in Hc. assert (c = 0) as -> by lia. rewrite bind_Done.
    unfold store, size_of. rewrite decide_True by lia. rewrite bind_Done.
    change (Z.to_nat 0) with 0%nat.
    rewrite <- (insert_after_copy data sv 0 NUL) by lia. done.
Qed.

Section Assigned.
Variables (c : Z) (self : FixedString) (sv : string_view).
Hypotheses (Hc0 : 0 ≤ c) (Hcsv : c ≤ size_of sv).

Lemma assigned_capacity N :
  has_capacity N self → c < N → has_capacity N (assigned c self sv).
Proof.
  unfold has_capacity, assigned, size_of in *. cbn [Data]. intros <- ?.
  rewrite length_app, length_take. cbn [List.length]. rewrite length_drop. lia.
Qed.

Lemma assigned_lookup_copied (i : nat) :
  (i < Z.to_nat c)%nat → Data (assigned c self sv) !! i = sv !! i.
Proof.
  unfold assigned, size_of in *. cbn [Data]. intros ?.
  rewrite lookup_app_l by (rewrite length_take; lia).
  by rewrite lookup_take_lt.
Qed.

Lemma assigned_lookup_terminator :
  Data (assigned c self sv) !! Z.to_nat c = Some NUL.
Proof.
  unfold assigned, size_of in *. cbn [Data].
  rewrite lookup_app_r by (rewrite length_take; lia).
  rewrite length_take. replace (Z.to_nat c - _)%nat with 0%nat by lia. done.
Qed.

Lemma assigned_lookup_beyond (i : nat) :
  (Z.to_nat c < i)%nat → Data (assigned c self sv) !! i = Data self !! i.
Proof.
  unfold assigned, size_of in *. cbn [Data]. intros ?.
  assert (List.length (take (Z.to_nat c) sv) = Z.to_nat c) as Hlen
    by (rewrite length_take; lia).
  rewrite lookup_app_r by lia. rewrite Hlen.
  destruct (i - Z.to_nat c)%nat as [|j] eqn:Hj; [lia|].
  rewrite lookup_cons, lookup_drop. f_equal. lia.
Qed.

Lemma assigned_elem : NUL ∈ Data (assigned c self sv).
Proof. unfold assigned. cbn [Data]. apply elem_of_app. right. left. Qed.

Lemma assigned_cstring :
  cstring_at (Data (assigned c self sv)) (up_to_nul (take (Z.to_nat c) sv)).
Proof.
  rewrite <- (up_to_nul_terminated _ (drop (Z.to_nat (c + 1)) (Data self))).
  apply cstring_at_up_to_nul, assigned_elem.
Qed.

Lemma assigned_invariant N :
  has_capacity N self → c < N → invariant N (assigned c self sv).
Proof.
  intros. apply invariant_of_terminated;
    [by apply assigned_capacity | apply assigned_elem].
Qed.
End Assigned.

(** ** What the operations compute on a [FixedString<N>], [N > 0] *)

Section Capacity.
Variables (N : Z) (self : FixedString).
Hypotheses (HN : 0 < N) (Hmax : N ≤ SIZE_MAX) (Hcap : has_capacity N self).

Lemma Assign_Release sv :
  Assign Release N self sv = Done (assigned (Z.min (size_of sv) (N - 1)) self sv).
Proof.
  unfold Assign. rewrite !assert_Release, !bind_Done.
  rewrite size_sub_1 by done. destruct self as [data].
  unfold has_capacity in Hcap. cbn [Data] in *. pose proof (size_of_nonneg sv).
  apply copy_and_terminate; lia.
Qed.

Lemma Assign_fits bm sv :
  size_of sv < N → Assign bm N self sv = Done (assigned (size_of sv) self sv).
Proof.
  intros Hfit. unfold Assign.
  replace (0 <? N) with true by (symmetry; apply Z.ltb_lt; lia).
  replace (size_of sv <? N) with true by (symmetry; apply Z.ltb_lt; lia).
  rewrite !assert_true, !bind_Done, size_sub_1 by done.
  destruct self as [data]. unfold has_capacity in Hcap. cbn [Data] in *.
  pose proof (size_of_nonneg sv).
  replace (Z.min (size_of sv) (N - 1)) with (size_of sv) by lia.
  apply copy_and_terminate; lia.
Qed.

Lemma Assign_Debug_truncating sv :
  N ≤ size_of sv →
  Assign Debug N self sv = AssertFail "FixedString: input will be truncated".
Proof.
  intros Hbig. unfold Assign.
  replace (0 <? N) with true by (symmetry; apply Z.ltb_lt; lia).
  replace (size_of sv <? N) with false by (symmetry; apply Z.ltb_ge; lia).
  reflexivity.
Qed.

Lemma Assign_establishes bm sv :
  establishes bm N (size_of sv) (Assign bm N self sv).
Proof.
  pose proof (size_of_nonneg sv). destruct bm.
  - destruct (decide (size_of sv < N)) as [Hfit|Hbig].
    + rewrite Assign_fits by done. apply assigned_invariant; [lia | lia | done | lia].
    + rewrite Assign_Debug_truncating by lia. split; [done | lia].
  - rewrite Assign_Release. apply assigned_invariant; [lia | lia | done | lia].
Qed.

Lemma Assign_cptr_null bm :
  Assign_cptr bm N self None = Done {| Data := NUL :: drop 1 (Data self) |}.
Proof.
  destruct self as [[|x rest]]; unfold has_capacity in Hcap; cbn [Data] in *.
  - rewrite size_of_nil in Hcap. lia.
  - unfold Assign_cptr, store. cbn [Data].
    rewrite decide_True by (rewrite size_of_cons; pose proof (size_of_nonneg rest); lia).
    reflexivity.
Qed.

Lemma FixedString_default_zeroes :
  FixedString_default N self = Done {| Data := replicate (Z.to_nat N) NUL |}.
Proof.
  unfold has_capacity, size_of in Hcap.
  unfold FixedString_default, memset, size_of.
  rewrite decide_True by lia. rewrite bind_Done.
  rewrite drop_ge by lia. by rewrite app_nil_r.
Qed.
End Capacity.

(** The C-pointer and std::string paths, whatever the capacity. *)

Lemma Assign_cptr_up_to_nul bm N self m :
  NUL ∈ m → Assign_cptr bm N self (Some m) = Assign bm N self (up_to_nul m).
Proof.
  intros Hin. unfold Assign_cptr. by rewrite view_of_cptr_up_to_nul.
Qed.

Lemma Assign_string_up_to_nul bm N self str :
  Assign_cptr bm N self (string_c_str str) = Assign bm N self (up_to_nul str).
Proof.
  unfold string_c_str. rewrite Assign_cptr_up_to_nul.
  - by rewrite up_to_nul_terminated.
  - apply elem_of_app. right. left.
Qed.

Lemma size_of_up_to_nul m : size_of (up_to_nul m) ≤ size_of m.
Proof.
  induction m as [|c m IH]; cbn [up_to_nul]; [done|].
  destruct (decide (c = NUL)); autorewrite with fstring_size;
    pose proof (size_of_nonneg m); lia.
Qed.

(** * Assignment from a view (C1, C2, C9) *)

(** C1 as stated fails: a view may hold a NUL byte.  With N = 4 and the
    six-byte view 'a', NUL, 'c', 'd', 'e', 'f' (L = 6 >= N), the release
    build copies the first three bytes and terminates at offset 3, but
    length() is 1, not N-1 = 3, and the logical content is "a", not the
    first three bytes of the input. *)
Lemma Assign_truncates_embedded_nul :
  0 < 4 ∧ has_capacity 4 (raw 4) ∧ size_of a_nul_cdef = 6 ∧ 4 ≤ 6 ∧
  ∃ fs, Assign Release 4 (raw 4) a_nul_cdef = Done fs ∧
        Data fs = [Byte.x61; NUL; Byte.x63; NUL] ∧
        length fs = Done 1 ∧
        to_string_view fs = Done [Byte.x61] ∧
        length fs ≠ Done (4 - 1) ∧
        to_string_view fs ≠ Done (take 3 a_nul_cdef).
Proof.
  repeat split; try done.
  eexists. repeat split; try reflexivity; by vm_compute.
Qed.

(** C1 (amended): for every capacity N > 0 and every view of length L >= N,
    Assign in a release build returns normally (no write leaves the N-byte
    buffer), leaves the first N-1 bytes of the input in bytes 0..N-2 and the
    terminator at offset N-1; the logical content is those N-1 bytes up to
    their first NUL, so when they hold no NUL, length() == N-1 and the
    logical content equals the first N-1 bytes of the input.  In a debug
    build the truncation assertion halts and no assigned object results. *)
Theorem Assign_truncates N self sv :
  0 < N → N ≤ SIZE_MAX → has_capacity N self → N ≤ size_of sv →
  (∃ fs, Assign Release N self sv = Done fs ∧
         has_capacity N fs ∧
         Data fs = take (Z.to_nat (N - 1)) sv ++ [NUL] ∧
         to_string_view fs = Done (up_to_nul (take (Z.to_nat (N - 1)) sv)) ∧
         (NUL ∉ take (Z.to_nat (N - 1)) sv →
            length fs = Done (N - 1) ∧
            to_string_view fs = Done (take (Z.to_nat (N - 1)) sv))) ∧
  Assign Debug N self sv = AssertFail "FixedString: input will be truncated".
Proof.
  intros HN Hmax Hcap Hbig. split; [|by apply Assign_Debug_truncating].
  exists (assigned (N - 1) self sv).
  pose proof (assigned_cstring (N - 1) self sv) as Hc.
  split.
  { rewrite Assign_Release by done. do 2 f_equal. lia. }
  split; [apply assigned_capacity; [lia | lia | done | lia]|].
  split.
  { unfold assigned. cbn [Data]. do 2 f_equal.
    apply drop_ge. unfold has_capacity, size_of in Hcap. lia. }
  split; [by apply to_string_view_of_cstring|].
  intros Hnul. rewrite (up_to_nul_id _ Hnul) in Hc.
  split; [|by apply to_string_view_of_cstring].
  rewrite (length_of_cstring _ _ Hc). f_equal. apply size_of_take; lia.
Qed.

Lemma Assign_truncates_witness :
  (∃ fs, Assign Release 4 (raw 4) (bytes_of "abcdef") = Done fs ∧
         has_capacity 4 fs ∧
         Data fs = bytes_of "abc" ++ [NUL] ∧
         length fs = Done 3 ∧
         to_string_view fs = Done (bytes_of "abc")) ∧
  Assign Debug 4 (raw 4) (bytes_of "abcdef")
  = AssertFail "FixedString: input will be truncated".
Proof.
  destruct (Assign_truncates 4 (raw 4) (bytes_of "abcdef"))
    as [(fs & Hrun & Hcap & Hdata & _ & Hcontent) Hdebug].
  - lia.
  - by vm_compute.
  - reflexivity.
  - by vm_compute.
  - split; [|exact Hdebug]. exists fs.
    destruct Hcontent as [Hlen Hview]; [nul_free|].
    repeat split; assumption.
Defined.

(** The scenario of the specification: N = 4, assign "abcdef". *)
Example Assign_abcdef_4 :
  Assign Release 4 (raw 4) (bytes_of "abcdef") = Done {| Data := bytes_of "abc" ++ [NUL] |} ∧
  length {| Data := bytes_of "abc" ++ [NUL] |} = Done 3.
Proof. split; reflexivity. Qed.

(** C2 as stated fails for the same reason.  With N = 8 and the three-byte
    view 'a', NUL, 'b' (L = 3 < N), Assign succeeds in both builds, yet
    length() is 1, not 3, and the logical content is "a", not the input. *)
Lemma Assign_fits_embedded_nul :
  0 < 8 ∧ has_capacity 8 (raw 8) ∧ size_of a_nul_b = 3 ∧ 3 < 8 ∧
  ∃ fs, Assign Debug 8 (raw 8) a_nul_b = Done fs ∧
        Assign Release 8 (raw 8) a_nul_b = Done fs ∧
        length fs = Done 1 ∧
        to_string_view fs = Done [Byte.x61] ∧
        length fs ≠ Done (size_of a_nul_b) ∧
        to_string_view fs ≠ Done a_nul_b.
Proof.
  repeat split; try done.
  eexists. repeat split; try reflexivity; by vm_compute.
Qed.

(** C2 (amended): for every capacity N > 0 and every input of length L < N,
    Assign returns normally in either build and the logical content is the
    input up to its first NUL byte; so for every input that holds no NUL
    byte, length() == L and the logical content, read through the view or
    the owned-string conversion, equals the input exactly. *)
Theorem Assign_fits_content bm N self sv :
  0 < N → N ≤ SIZE_MAX → has_capacity N self → size_of sv < N →
  ∃ fs, Assign bm N self sv = Done fs ∧
        to_string_view fs = Done (up_to_nul sv) ∧
        (NUL ∉ sv →
           length fs = Done (size_of sv) ∧
           to_string_view fs = Done sv ∧
           ToString fs = Done sv).
Proof.
  intros HN Hmax Hcap Hfit.
  exists (assigned (size_of sv) self sv).
  pose proof (assigned_cstring (size_of sv) self sv) as Hc.
  rewrite take_size_of in Hc.
  split; [by apply Assign_fits|].
  split; [by apply to_string_view_of_cstring|].
  intros Hnul. rewrite (up_to_nul_id _ Hnul) in Hc.
  split; [by apply length_of_cstring|].
  split; [by apply to_string_view_of_cstring | by apply ToString_of_cstring].
Qed.

Lemma Assign_fits_content_witness :
  ∃ fs, Assign Debug 8 (raw 8) (bytes_of "hi") = Done fs ∧
        length fs = Done 2 ∧
        to_string_view fs = Done (bytes_of "hi") ∧
        ToString fs = Done (bytes_of "hi").
Proof.
  destruct (Assign_fits_content Debug 8 (raw 8) (bytes_of "hi"))
    as (fs & Hrun & _ & Hcontent).
  - lia.
  - by vm_compute.
  - reflexivity.
  - by vm_compute.
  - exists fs. split; [exact Hrun|]. apply Hcontent. nul_free.
Defined.

(** C9: Assign from a view of length L either halts on the truncation
    assertion (a debug build and L >= N; nothing is returned), or runs to
    completion (a release build, or L < N); then, with c = min(L, N-1), the
    bytes below offset c are the first c bytes of the view, the byte at
    offset c is the terminator, every byte at an offset greater than c keeps
    the value it had before the call, and the buffer keeps its N bytes. *)
Theorem Assign_frame bm N self sv :
  0 < N → N ≤ SIZE_MAX → has_capacity N self →
  (bm = Debug ∧ N ≤ size_of sv ∧
   Assign bm N self sv = AssertFail "FixedString: input will be truncated") ∨
  ((bm = Release ∨ size_of sv < N) ∧
   let c := Z.to_nat (Z.min (size_of sv) (N - 1)) in
   ∃ fs, Assign bm N self sv = Done fs ∧
         has_capacity N fs ∧
         (∀ i, (i < c)%nat → Data fs !! i = sv !! i) ∧
         Data fs !! c = Some NUL ∧
         (∀ i, (c < i)%nat → Data fs !! i = Data self !! i)).
Proof.
  intros HN Hmax Hcap. pose proof (size_of_nonneg sv) as Hsv.
  assert (bm = Debug ∧ N ≤ size_of sv ∨ (bm = Release ∨ size_of sv < N))
    as [[-> Hbig]|Hrun].
  { destruct bm; [|by right; left].
    destruct (decide (size_of sv < N)); [by right; right | left; split; [done | lia]]. }
  { left. split; [done|]. split; [done|]. by apply Assign_Debug_truncating. }
  right. split; [done|]. intros c.
  exists (assigned (Z.min (size_of sv) (N - 1)) self sv).
  split.
  { destruct Hrun as [->|Hfit]; [by apply Assign_Release|].
    rewrite Assign_fits by done. do 2 f_equal. lia. }
  split; [apply assigned_capacity; [lia | lia | done | lia]|].
  split; [intros i Hi; apply assigned_lookup_copied; [lia | done]|].
  split; [apply assigned_lookup_terminator; lia|].
  intros i Hi. apply assigned_lookup_beyond; [lia | lia | done].
Qed.

Lemma Assign_frame_witness :
  (Release = Debug ∧ 8 ≤ size_of (bytes_of "hi") ∧
   Assign Release 8 (raw 8) (bytes_of "hi")
   = AssertFail "FixedString: input will be truncated") ∨
  ((Release = Release ∨ size_of (bytes_of "hi") < 8) ∧
   let c := Z.to_nat (Z.min (size_of (bytes_of "hi")) (8 - 1)) in
   ∃ fs, Assign Release 8 (raw 8) (bytes_of "hi") = Done fs ∧
         has_capacity 8 fs ∧
         (∀ i, (i < c)%nat → Data fs !! i = bytes_of "hi" !! i) ∧
         Data fs !! c = Some NUL ∧
         (∀ i, (c < i)%nat → Data fs !! i = Data (raw 8) !! i)).
Proof.
  apply (Assign_frame Release 8 (raw 8) (bytes_of "hi")).
  - lia.
  - by vm_compute.
  - reflexivity.
Defined.

(** The bytes after the terminator are indeed left as they were: five of
    the eight ['x'] bytes of the raw storage survive assigning "hi". *)
Example Assign_leaves_trailing_bytes :
  Assign Release 8 (raw 8) (bytes_of "hi")
  = Done {| Data := bytes_of "hi" ++ NUL :: replicate 5 Byte.x78 |}.
Proof. reflexivity. Qed.

(** * The invariant (C3) *)

(** C3: for every capacity N > 0, default construction, construction and
    assignment from a view, from a C pointer (null, or pointing at a
    terminated string), from a std::string, and copy construction and
    assignment all leave an object whose N-byte buffer holds a terminator
    and whose content length is at most N-1.  The only other outcome is
    the truncation assertion of a debug build, for an input of N bytes or
    more; no operation is undefined. *)
Theorem invariant_established bm N self :
  0 < N → N ≤ SIZE_MAX → has_capacity N self →
  (∃ fs, FixedString_default N self = Done fs ∧ invariant N fs) ∧
  (∀ sv, establishes bm N (size_of sv) (FixedString_sv bm N self sv) ∧
         establishes bm N (size_of sv) (assign_sv bm N self sv)) ∧
  (∃ fs, FixedString_cptr bm N self None = Done fs ∧
         assign_cptr bm N self None = Done fs ∧
         invariant N fs) ∧
  (∀ p, valid_cstr p →
        ∃ L, strlen p = Done L ∧
             establishes bm N L (FixedString_cptr bm N self p) ∧
             establishes bm N L (assign_cptr bm N self p)) ∧
  (∀ str, establishes bm N (size_of str) (FixedString_string bm N self str) ∧
          establishes bm N (size_of str) (assign_string bm N self str)) ∧
  (∀ other, invariant N other →
            invariant N (FixedString_copy other) ∧
            invariant N (assign_copy self other)).
Proof.
  intros HN Hmax Hcap.
  split.
  { rewrite FixedString_default_zeroes by done. eexists. split; [done|].
    apply invariant_of_terminated.
    - unfold has_capacity, size_of. cbn [Data]. rewrite length_replicate. lia.
    - cbn [Data]. destruct (Z.to_nat N) as [|n] eqn:Hn; [lia | left]. }
  split; [intros sv; split; by apply Assign_establishes|].
  split.
  { unfold FixedString_cptr, assign_cptr. rewrite Assign_cptr_null by done.
    eexists. split; [done|]. split; [done|].
    apply invariant_of_terminated; [|left].
    unfold has_capacity, size_of in *. cbn [Data List.length].
    rewrite length_drop. lia. }
  split.
  { intros p (m & -> & Hin). exists (size_of (up_to_nul m)).
    unfold FixedString_cptr, assign_cptr, strlen.
    rewrite (strlen_mem_cstring m _ (cstring_at_up_to_nul m Hin)).
    rewrite Assign_cptr_up_to_nul by done.
    split; [done|]. split; by apply Assign_establishes. }
  split.
  { intros str. unfold FixedString_string, assign_string.
    rewrite Assign_string_up_to_nul.
    split; apply (establishes_mono _ _ (size_of (up_to_nul str)));
      (apply size_of_up_to_nul || by apply Assign_establishes). }
  intros [other] Hinv. by split.
Qed.

Lemma invariant_established_witness :
  (∃ fs, FixedString_default 8 (raw 8) = Done fs ∧ invariant 8 fs) ∧
  establishes Release 8 2 (assign_sv Release 8 (raw 8) (bytes_of "hi")) ∧
  (∃ fs, assign_cptr Release 8 (raw 8) None = Done fs ∧ invariant 8 fs) ∧
  (∃ L, strlen (literal "hi") = Done L ∧
        establishes Release 8 L (assign_cptr Release 8 (raw 8) (literal "hi"))) ∧
  establishes Release 8 2 (assign_string Release 8 (raw 8) (bytes_of "hi")) ∧
  invariant 8 (assign_copy (raw 8) (holding 8 "hi")).
Proof.
  destruct (invariant_established Release 8 (raw 8))
    as (Hdefault & Hsv & (fs & _ & Hnull & Hinv) & Hptr & Hstr & Hcopy).
  - lia.
  - by vm_compute.
  - reflexivity.
  - split; [exact Hdefault|].
    split; [apply (Hsv (bytes_of "hi"))|].
    split; [by exists fs|].
    split.
    + destruct (Hptr (literal "hi")) as (L & HL & _ & Hest).
      * eexists. split; [reflexivity|]. vm_compute. do 2 right. left.
      * by exists L.
    + split; [apply (Hstr (bytes_of "hi"))|].
      apply (Hcopy (holding 8 "hi")). invariant_at 2.
Defined.

(** * The null pointer (C6, C4) *)

(** C6: for every capacity N > 0, in either build, constructing or
    assigning from a null C-string pointer returns normally -- any read
    through the null pointer is undefined in this model, so the pointer is
    not dereferenced -- and the object is the empty string: empty() is true
    and length() is 0.  Only Data[0] is written. *)
Theorem Assign_null_is_empty bm N self :
  0 < N → has_capacity N self →
  ∃ fs, FixedString_cptr bm N self None = Done fs ∧
        assign_cptr bm N self None = Done fs ∧
        empty fs = Done true ∧
        length fs = Done 0 ∧
        Data fs = NUL :: drop 1 (Data self).
Proof.
  intros HN Hcap. unfold FixedString_cptr, assign_cptr.
  rewrite Assign_cptr_null by done. eexists. by repeat split.
Qed.

Lemma Assign_null_is_empty_witness :
  ∃ fs, FixedString_cptr Debug 16 (raw 16) None = Done fs ∧
        assign_cptr Debug 16 (raw 16) None = Done fs ∧
        empty fs = Done true ∧
        length fs = Done 0 ∧
        Data fs = NUL :: drop 1 (Data (raw 16)).
Proof.
  apply (Assign_null_is_empty Debug 16 (raw 16)).
  - lia.
  - reflexivity.
Defined.

(** C4: for every instance, operator== against a null pointer is false and
    operator!= against it is true, whatever the buffer holds; an empty
    instance (empty() is true) is therefore not equal to the null pointer,
    but it is equal to the empty view and to the literal empty string. *)
Theorem null_pointer_asymmetry (fs : FixedString) :
  op_eq_cptr fs None = Done false ∧
  op_ne_cptr fs None = Done true ∧
  (empty fs = Done true →
   op_eq_cptr fs None = Done false ∧
   op_eq_sv fs [] = Done true ∧
   op_eq_cptr fs (literal "") = Done true).
Proof.
  split; [done|]. split; [done|].
  intros Hempty. apply empty_Done_true in Hempty.
  split; [done|]. split.
  - unfold op_eq_sv. by rewrite (to_string_view_of_cstring fs [] Hempty).
  - change (literal "") with (Some [NUL]).
    by rewrite (op_eq_cptr_cstring fs [] Hempty _ [] (cstring_at_nil [])).
Qed.

Lemma null_pointer_asymmetry_witness :
  empty (holding 16 "") = Done true ∧
  op_eq_cptr (holding 16 "") None = Done false ∧
  op_eq_sv (holding 16 "") [] = Done true ∧
  op_eq_cptr (holding 16 "") (literal "") = Done true.
Proof.
  split; [reflexivity|].
  apply (null_pointer_asymmetry (holding 16 "")).
  reflexivity.
Defined.

(** The scenario of the specification: N = 16, assign from the null
    pointer. *)
Example null_scenario_16 :
  (fs ← FixedString_cptr Debug 16 (raw 16) None; empty fs) = Done true ∧
  (fs ← FixedString_cptr Debug 16 (raw 16) None; op_eq_cptr fs None) = Done false ∧
  (fs ← FixedString_cptr Debug 16 (raw 16) None; op_eq_cptr fs (literal "")) = Done true.
Proof. repeat split. Qed.

(** * Owned strings and C pointers reduce to the view path (C7) *)

(** C7 as stated fails: a std::string may hold a NUL byte, and the
    std::string overloads go through c_str(), which stops there.  With N = 8
    and s = 'a', NUL, 'b' the two paths leave different buffers; with N = 4
    and s = 'a', NUL, 'c', 'd', 'e', 'f' a debug build completes through the
    std::string overload but halts on the view of all of s. *)
Lemma assign_string_embedded_nul :
  (∃ fs1 fs2, assign_string Release 8 (raw 8) a_nul_b = Done fs1 ∧
              Assign Release 8 (raw 8) a_nul_b = Done fs2 ∧
              Data fs1 = [Byte.x61; NUL] ++ replicate 6 Byte.x78 ∧
              Data fs2 = [Byte.x61; NUL; Byte.x62; NUL] ++ replicate 4 Byte.x78 ∧
              fs1 ≠ fs2) ∧
  (∃ fs, assign_string Debug 4 (raw 4) a_nul_cdef = Done fs ∧
         Assign Debug 4 (raw 4) a_nul_cdef
         = AssertFail "FixedString: input will be truncated").
Proof.
  split.
  - eexists _, _. repeat split; try reflexivity. by vm_compute.
  - eexists. split; reflexivity.
Qed.

(** C7 (amended): the std::string constructor and assignment operator leave
    the instance in the same state as Assign on the view over the bytes of s
    before its first NUL byte -- the view over all of s when s holds no NUL
    byte -- and the C-pointer constructor and assignment operator, for a
    non-null pointer to a terminated string, in the same state as Assign on
    the view over its bytes up to its terminator. *)
Theorem string_and_pointer_reduce_to_view bm N self (str : std_string) (m : list byte) :
  NUL ∈ m →
  (FixedString_string bm N self str = Assign bm N self (up_to_nul str) ∧
   assign_string bm N self str = Assign bm N self (up_to_nul str)) ∧
  (NUL ∉ str →
   FixedString_string bm N self str = Assign bm N self str ∧
   assign_string bm N self str = Assign bm N self str) ∧
  (FixedString_cptr bm N self (Some m) = Assign bm N self (up_to_nul m) ∧
   assign_cptr bm N self (Some m) = Assign bm N self (up_to_nul m)).
Proof.
  intros Hm.
  unfold FixedString_string, assign_string, FixedString_cptr, assign_cptr.
  rewrite Assign_string_up_to_nul, (Assign_cptr_up_to_nul bm N self m Hm).
  split; [done|]. split; [|done].
  intros Hs. by rewrite up_to_nul_id.
Qed.

Lemma string_and_pointer_reduce_to_view_witness :
  assign_string Debug 8 (raw 8) (bytes_of "hi")
    = Assign Debug 8 (raw 8) (bytes_of "hi") ∧
  FixedString_string Debug 8 (raw 8) a_nul_b
    = Assign Debug 8 (raw 8) (up_to_nul a_nul_b) ∧
  assign_cptr Debug 8 (raw 8) (literal "hi")
    = Assign Debug 8 (raw 8) (up_to_nul (bytes_of "hi" ++ [NUL])).
Proof.
  destruct (string_and_pointer_reduce_to_view Debug 8 (raw 8) (bytes_of "hi")
              (bytes_of "hi" ++ [NUL])) as (_ & Hfree & _ & Hptr).
  - vm_compute. do 2 right. left.
  - split; [apply Hfree; nul_free|].
    split; [|exact Hptr].
    apply (string_and_pointer_reduce_to_view Debug 8 (raw 8) a_nul_b [NUL]). left.
Defined.

(** * Equality across capacities (C5) *)

(** C5: for all capacities N and M, operator== between a FixedString<N> and
    a FixedString<M> that satisfy the invariant is true exactly when their
    logical contents are equal, whatever the two buffer sizes and the bytes
    after the terminators; operator!= is its negation. *)
Theorem op_eq_compares_content N M (a b : FixedString) :
  invariant N a → invariant M b →
  ∃ sa sb, to_string_view a = Done sa ∧
           to_string_view b = Done sb ∧
           op_eq a b = Done (bool_decide (sa = sb)) ∧
           op_ne a b = Done (negb (bool_decide (sa = sb))).
Proof.
  intros Ha Hb.
  apply invariant_cstring in Ha as (sa & Ha & _).
  apply invariant_cstring in Hb as (sb & Hb & _).
  exists sa, sb.
  split; [by apply to_string_view_of_cstring|].
  split; [by apply to_string_view_of_cstring|].
  unfold op_ne. by rewrite (op_eq_cstring_r b sb Hb a sa Ha).
Qed.

Lemma op_eq_compares_content_witness :
  ∃ sa sb,
    to_string_view (holding 8 "hi") = Done sa ∧
    to_string_view (holding 32 "hi") = Done sb ∧
    op_eq (holding 8 "hi") (holding 32 "hi") = Done (bool_decide (sa = sb)) ∧
    op_ne (holding 8 "hi") (holding 32 "hi") = Done (negb (bool_decide (sa = sb))).
Proof.
  apply (op_eq_compares_content 8 32 (holding 8 "hi") (holding 32 "hi")).
  - invariant_at 2.
  - invariant_at 2.
Defined.

(** "hi" in capacities 8 and 32 compares equal; "hi" and "ho" in capacity 8
    compare unequal. *)
Example op_eq_hi_8_32 :
  (a ← FixedString_cptr Debug 8 (raw 8) (literal "hi");
   b ← FixedString_cptr Debug 32 (raw 32) (literal "hi");
   op_eq a b) = Done true.
Proof. reflexivity. Qed.

Example op_eq_hi_ho_8 :
  (a ← FixedString_cptr Debug 8 (raw 8) (literal "hi");
   b ← FixedString_cptr Debug 8 (raw 8) (literal "ho");
   op_eq a b) = Done false.
Proof. reflexivity. Qed.

(** * Concatenation (C8) *)

(** C8: for instances that satisfy the invariant (of any two capacities), a
    view and a C pointer that is null or points at a terminated string, each
    of the five operator+ overloads returns the owned string made of the
    left operand's logical content followed by the right operand's; a null
    pointer contributes the empty string and is not read. *)
Theorem concatenation N M (lhs rhs : FixedString) (sv : string_view) (p : cptr) :
  invariant N lhs → invariant M rhs → p = None ∨ valid_cstr p →
  ∃ sl sr, ToString lhs = Done sl ∧ ToString rhs = Done sr ∧
           plus_sv_fs sv rhs = Done (sv ++ sr) ∧
           plus_fs_sv lhs sv = Done (sl ++ sv) ∧
           plus_fs_cptr lhs p = Done (sl ++ cptr_content p) ∧
           plus_cptr_fs p rhs = Done (cptr_content p ++ sr) ∧
           plus_fs_fs lhs rhs = Done (sl ++ sr).
Proof.
  intros Hl Hr Hp.
  apply invariant_cstring in Hl as (sl & Hl & _).
  apply invariant_cstring in Hr as (sr & Hr & _).
  destruct (or_empty_content p Hp) as (m & Hm & Hc).
  exists sl, sr.
  unfold plus_sv_fs, plus_fs_sv, plus_fs_cptr, plus_cptr_fs, plus_fs_fs, c_str.
  rewrite Hm, (ToString_of_cstring lhs sl Hl), (ToString_of_cstring rhs sr Hr).
  rewrite (string_of_cstring _ _ Hl), (string_of_cstring _ _ Hc), !bind_Done.
  rewrite !(string_append_cstring _ _ _ Hr), (string_append_cstring _ _ _ Hc).
  done.
Qed.

Lemma concatenation_witness :
  ∃ sl sr,
    ToString (holding 8 "ab") = Done sl ∧
    ToString (holding 32 "cd") = Done sr ∧
    plus_sv_fs (bytes_of "ab") (holding 32 "cd") = Done (bytes_of "ab" ++ sr) ∧
    plus_fs_sv (holding 8 "ab") (bytes_of "ab") = Done (sl ++ bytes_of "ab") ∧
    plus_fs_cptr (holding 8 "ab") None = Done (sl ++ cptr_content None) ∧
    plus_cptr_fs None (holding 32 "cd") = Done (cptr_content None ++ sr) ∧
    plus_fs_fs (holding 8 "ab") (holding 32 "cd") = Done (sl ++ sr).
Proof.
  apply (concatenation 8 32 (holding 8 "ab") (holding 32 "cd") (bytes_of "ab") None).
  - invariant_at 2.
  - invariant_at 2.
  - left. reflexivity.
Defined.

(** "ab" + "cd" is "abcd" on every overload, and the null pointer adds
    nothing. *)
Example plus_ab_cd :
  plus_fs_sv (holding 8 "ab") (bytes_of "cd") = Done (bytes_of "abcd") ∧
  plus_sv_fs (bytes_of "ab") (holding 32 "cd") = Done (bytes_of "abcd") ∧
  plus_fs_cptr (holding 8 "ab") (literal "cd") = Done (bytes_of "abcd") ∧
  plus_cptr_fs (literal "ab") (holding 32 "cd") = Done (bytes_of "abcd") ∧
  plus_fs_fs (holding 8 "ab") (holding 32 "cd") = Done (bytes_of "abcd") ∧
  plus_fs_cptr (holding 8 "ab") None = Done (bytes_of "ab") ∧
  plus_cptr_fs None (holding 32 "cd") = Done (bytes_of "cd").
Proof. repeat split. Qed.

(** * Round trip through the owned string (C10) *)

(** C10: for every capacity N > 0 and every FixedString<N> s that satisfies
    the invariant, constructing a FixedString<N> from s.ToString() returns
    normally in either build (the truncation assertion of the debug build
    does not fire), and the new instance satisfies the invariant, has the
    logical content of s and compares equal to s. *)
Theorem ToString_roundtrip bm N (s self : FixedString) :
  0 < N → N ≤ SIZE_MAX → invariant N s → has_capacity N self →
  ∃ str fs, ToString s = Done str ∧
            FixedString_string bm N self str = Done fs ∧
            invariant N fs ∧
            ToString fs = Done str ∧
            op_eq fs s = Done true ∧
            op_eq s fs = Done true.
Proof.
  intros HN Hmax Hinv Hcap.
  apply invariant_cstring in Hinv as (str & Hs & Hlen).
  pose proof (size_of_nonneg str) as Hnn.
  assert (NUL ∉ str) as Hnul by apply Hs.
  exists str, (assigned (size_of str) self str).
  pose proof (assigned_cstring (size_of str) self str) as Hc.
  rewrite take_size_of, up_to_nul_id in Hc by done.
  split; [by apply ToString_of_cstring|].
  split.
  { unfold FixedString_string. rewrite Assign_string_up_to_nul, up_to_nul_id by done.
    apply Assign_fits; [done.. | lia]. }
  split; [apply assigned_invariant; [lia | lia | done | lia]|].
  split; [by apply ToString_of_cstring|].
  rewrite (op_eq_cstring_r _ _ Hs _ _ Hc), (op_eq_cstring_r _ _ Hc _ _ Hs).
  by rewrite bool_decide_eq_true_2.
Qed.

Lemma ToString_roundtrip_witness :
  ∃ str fs,
    ToString (holding 8 "hi") = Done str ∧
    FixedString_string Debug 8 (raw 8) str = Done fs ∧
    invariant 8 fs ∧
    ToString fs = Done str ∧
    op_eq fs (holding 8 "hi") = Done true ∧
    op_eq (holding 8 "hi") fs = Done true.
Proof.
  apply (ToString_roundtrip Debug 8 (holding 8 "hi") (raw 8)).
  - lia.
  - by vm_compute.
  - invariant_at 2.
  - reflexivity.
Defined.

(** * Further properties of the header *)

(** ** Helper lemmas *)

Lemma strlen_mem_unterminated m : NUL ∉ m → strlen_mem m = Undefined.
Proof.
  induction m as [|c m IH]; intros Hm; cbn [strlen_mem]; [done|].
  apply not_elem_of_cons in Hm as [Hc Hm].
  rewrite decide_False by congruence. by rewrite IH.
Qed.

Lemma up_to_nul_nul_free m : NUL ∉ up_to_nul m.
Proof.
  induction m as [|c m IH]; cbn [up_to_nul]; [apply not_elem_of_nil|].
  destruct (decide (c = NUL)); [apply not_elem_of_nil|].
  apply not_elem_of_cons. split; [congruence | done].
Qed.

Lemma up_to_nul_take (n : nat) m : up_to_nul (take n m) = take n (up_to_nul m).
Proof.
  revert n. induction m as [|c m IH]; intros [|n]; cbn [take up_to_nul]; try done.
  destruct (decide (c = NUL)); [done|]. cbn [take]. by rewrite IH.
Qed.

Lemma size_of_take_min {A} (l : list A) (c : Z) :
  0 ≤ c → size_of (take (Z.to_nat c) l) = Z.min c (size_of l).
Proof. unfold size_of. intros ?. rewrite length_take. lia. Qed.

(** The object [Assign] returns whenever it runs to completion. *)
Lemma Assign_runs bm N self sv :
  0 < N → N ≤ SIZE_MAX → has_capacity N self →
  bm = Release ∨ size_of sv < N →
  Assign bm N self sv = Done (assigned (Z.min (size_of sv) (N - 1)) self sv).
Proof.
  intros HN Hmax Hcap [->|Hfit]; [by apply Assign_Release|].
  rewrite Assign_fits by done. do 2 f_equal. lia.
Qed.

Lemma Assign_Done_inv bm N self sv fs :
  0 < N → N ≤ SIZE_MAX → has_capacity N self →
  Assign bm N self sv = Done fs →
  fs = assigned (Z.min (size_of sv) (N - 1)) self sv ∧
  (bm = Release ∨ size_of sv < N).
Proof.
  intros HN Hmax Hcap Hrun.
  assert (bm = Release ∨ size_of sv < N) as Hmode.
  { destruct bm; [|by left]. right.
    destruct (decide (size_of sv < N)) as [|Hbig]; [done|].
    rewrite Assign_Debug_truncating in Hrun by lia. done. }
  split; [|done]. rewrite Assign_runs in Hrun by done. by injection Hrun.
Qed.

Lemma assigned_idem c self sv :
  0 ≤ c → c ≤ size_of sv →
  assigned c (assigned c self sv) sv = assigned c self sv.
Proof.
  intros H0 Hsv. unfold assigned, size_of in *. cbn [Data]. do 3 f_equal.
  replace (Z.to_nat (c + 1)) with (S (Z.to_nat c)) by lia.
  rewrite drop_app_ge by (rewrite length_take; lia).
  rewrite length_take.
  replace (S (Z.to_nat c) - _)%nat with 1%nat by lia. done.
Qed.

Lemma assigned_ToString c self sv :
  0 ≤ c →
  ToString (assigned c self sv) = Done (take (Z.to_nat c) (up_to_nul sv)).
Proof.
  intros _. rewrite <- up_to_nul_take.
  apply ToString_of_cstring, assigned_cstring.
Qed.

(** ** Edge behaviour of assignment *)

(** X1: with capacity N = 0 no assignment can succeed.  Assign from any view
    halts on the capacity assertion in a debug build and writes outside the
    (empty) buffer in a release build; Assign from the null pointer writes
    Data[0] outside the buffer in either build, since that path has no
    assertion. *)
Theorem Assign_zero_capacity (self : FixedString) (sv : string_view) :
  has_capacity 0 self →
  Assign Debug 0 self sv = AssertFail "FixedString capacity must be > 0" ∧
  Assign Release 0 self sv = Undefined ∧
  Assign_cptr Debug 0 self None = Undefined ∧
  Assign_cptr Release 0 self None = Undefined.
Proof.
  intros Hcap. destruct self as [data]. unfold has_capacity in Hcap.
  cbn [Data] in Hcap. assert (data = []) as ->.
  { destruct data; [done|]. rewrite size_of_cons in Hcap.
    pose proof (size_of_nonneg data). lia. }
  split; [reflexivity|]. split; [|by split].
  unfold Assign. rewrite !assert_Release, !bind_Done. cbn [Data].
  change (size_sub 0 1) with SIZE_MAX. pose proof (size_of_nonneg sv) as Hsv.
  assert (0 ≤ Z.min (size_of sv) SIZE_MAX) as Hc by (unfold SIZE_MAX; lia).
  destruct (0 <? _) eqn:Hpos.
  - apply Z.ltb_lt in Hpos. unfold memcpy.
    rewrite decide_False; [done|]. unfold size_of at 1. simpl. lia.
  - rewrite bind_Done. unfold store.
    rewrite decide_False; [done|]. unfold size_of at 1. simpl. lia.
Qed.

Lemma Assign_zero_capacity_witness :
  Assign Debug 0 (raw 0) (bytes_of "hi")
    = AssertFail "FixedString capacity must be > 0" ∧
  Assign Release 0 (raw 0) (bytes_of "hi") = Undefined ∧
  Assign_cptr Debug 0 (raw 0) None = Undefined ∧
  Assign_cptr Release 0 (raw 0) None = Undefined.
Proof. apply (Assign_zero_capacity (raw 0) (bytes_of "hi")). reflexivity. Defined.

(** X2: length(), ToString() and the view conversion return exactly when
    the buffer holds a terminator; on a buffer without one (Data is public,
    and a constructor starts from raw storage) they read past the array,
    which is undefined. *)
Theorem length_defined_iff_terminated (fs : FixedString) :
  ((∃ L, length fs = Done L) ↔ NUL ∈ Data fs) ∧
  ((∃ s, ToString fs = Done s) ↔ NUL ∈ Data fs) ∧
  ((∃ s, to_string_view fs = Done s) ↔ NUL ∈ Data fs) ∧
  (NUL ∉ Data fs →
   length fs = Undefined ∧ ToString fs = Undefined ∧
   to_string_view fs = Undefined).
Proof.
  assert (NUL ∉ Data fs → length fs = Undefined ∧ ToString fs = Undefined ∧
                          to_string_view fs = Undefined) as Hno.
  { intros Hm. unfold length, ToString, to_string_view, string_of_cptr,
      view_of_cptr, strlen, c_str.
    by rewrite (strlen_mem_unterminated _ Hm). }
  assert (NUL ∈ Data fs → ∃ s, length fs = Done (size_of s) ∧
                               ToString fs = Done s ∧
                               to_string_view fs = Done s) as Hyes.
  { intros Hm. destruct (cstring_at_exists _ Hm) as [s Hs]. exists s.
    split; [by apply length_of_cstring|].
    split; [by apply ToString_of_cstring | by apply to_string_view_of_cstring]. }
  repeat split; try (intros Hm; destruct (Hyes Hm) as (s & ? & ? & ?); eauto);
    try (by apply Hno).
  all: intros [x Hx]; destruct (decide (NUL ∈ Data fs)) as [|Hm]; [done|];
    destruct (Hno Hm) as (H1 & H2 & H3); congruence.
Qed.

Lemma length_defined_iff_terminated_witness :
  length (raw 4) = Undefined ∧ ToString (raw 4) = Undefined ∧
  to_string_view (raw 4) = Undefined.
Proof.
  apply (length_defined_iff_terminated (raw 4)). nul_free.
Defined.

(** X3: constructing or assigning from a non-null pointer whose readable
    bytes hold no terminator is undefined in both builds and for every
    capacity: the view is built with strlen before any assertion runs. *)
Theorem Assign_cptr_unterminated bm N (self : FixedString) (m : list byte) :
  NUL ∉ m →
  Assign_cptr bm N self (Some m) = Undefined ∧
  FixedString_cptr bm N self (Some m) = Undefined ∧
  assign_cptr bm N self (Some m) = Undefined.
Proof.
  intros Hm. unfold FixedString_cptr, assign_cptr, Assign_cptr, view_of_cptr.
  by rewrite (strlen_mem_unterminated _ Hm).
Qed.

Lemma Assign_cptr_unterminated_witness :
  Assign_cptr Debug 8 (raw 8) (Some (bytes_of "hi")) = Undefined ∧
  FixedString_cptr Debug 8 (raw 8) (Some (bytes_of "hi")) = Undefined ∧
  assign_cptr Debug 8 (raw 8) (Some (bytes_of "hi")) = Undefined.
Proof.
  apply (Assign_cptr_unterminated Debug 8 (raw 8) (bytes_of "hi")). nul_free.
Defined.

(** X4: the assertions of a debug build only stop a run; they never change
    its result.  Whatever Assign (from a view, a pointer or a std::string)
    returns in a debug build, it returns in a release build too. *)
Theorem debug_result_is_release_result N (self fs : FixedString)
    (sv : string_view) (p : cptr) (str : std_string) :
  (Assign Debug N self sv = Done fs → Assign Release N self sv = Done fs) ∧
  (Assign_cptr Debug N self p = Done fs → Assign_cptr Release N self p = Done fs) ∧
  (assign_string Debug N self str = Done fs →
   assign_string Release N self str = Done fs).
Proof.
  assert (∀ v, Assign Debug N self v = Done fs → Assign Release N self v = Done fs)
    as Hsv.
  { intros v. unfold Assign, assert_.
    destruct (0 <? N); [|done]. destruct (size_of v <? N); [|done]. done. }
  assert (∀ q, Assign_cptr Debug N self q = Done fs →
               Assign_cptr Release N self q = Done fs) as Hptr.
  { intros [m|]; [|done]. unfold Assign_cptr.
    destruct (view_of_cptr (Some m)) as [v| |]; [|done..].
    rewrite !bind_Done. apply Hsv. }
  split; [apply Hsv|]. split; [apply Hptr|]. apply Hptr.
Qed.

Lemma debug_result_is_release_result_witness :
  Assign Release 8 (raw 8) (bytes_of "hi")
  = Done {| Data := bytes_of "hi" ++ NUL :: replicate 5 Byte.x78 |}.
Proof.
  apply (debug_result_is_release_result 8 (raw 8) _ (bytes_of "hi") None []).
  reflexivity.
Defined.

(** ** Assigning again *)

(** X5: Assign is idempotent on the whole buffer: assigning the view that
    was just assigned returns the same object, byte for byte. *)
Theorem Assign_idempotent bm N (self fs : FixedString) (sv : string_view) :
  0 < N → N ≤ SIZE_MAX → has_capacity N self →
  Assign bm N self sv = Done fs →
  Assign bm N fs sv = Done fs.
Proof.
  intros HN Hmax Hcap Hrun. pose proof (size_of_nonneg sv).
  destruct (Assign_Done_inv _ _ _ _ _ HN Hmax Hcap Hrun) as [-> Hmode].
  rewrite Assign_runs; [|done|done| |done].
  - by rewrite assigned_idem by lia.
  - apply assigned_capacity; [lia | lia | done | lia].
Qed.

Lemma Assign_idempotent_witness :
  Assign Debug 8 {| Data := bytes_of "hi" ++ NUL :: replicate 5 Byte.x78 |}
         (bytes_of "hi")
  = Done {| Data := bytes_of "hi" ++ NUL :: replicate 5 Byte.x78 |}.
Proof.
  apply (Assign_idempotent Debug 8 (raw 8)).
  - lia.
  - by vm_compute.
  - reflexivity.
  - reflexivity.
Defined.

(** X6: assigning a shorter view over a longer one keeps the old bytes
    after the new terminator.  After Assign of sv1 (L1 < N) and then of sv2
    (L2 < L1), the logical content is sv2 up to its first NUL, but every
    buffer byte at an offset i with L2 < i < L1 is still byte i of sv1. *)
Theorem Assign_shorter_keeps_old_bytes bm N (self : FixedString)
    (sv1 sv2 : string_view) :
  0 < N → N ≤ SIZE_MAX → has_capacity N self →
  size_of sv1 < N → size_of sv2 < size_of sv1 →
  ∃ fs1 fs2, Assign bm N self sv1 = Done fs1 ∧
             Assign bm N fs1 sv2 = Done fs2 ∧
             ToString fs2 = Done (up_to_nul sv2) ∧
             ∀ i, (Z.to_nat (size_of sv2) < i < Z.to_nat (size_of sv1))%nat →
                  Data fs2 !! i = sv1 !! i.
Proof.
  intros HN Hmax Hcap H1 H2.
  pose proof (size_of_nonneg sv1). pose proof (size_of_nonneg sv2).
  exists (assigned (size_of sv1) self sv1),
         (assigned (size_of sv2) (assigned (size_of sv1) self sv1) sv2).
  split; [by apply Assign_fits|].
  split.
  { apply Assign_fits; [done | done | | lia].
    apply assigned_capacity; [lia | lia | done | lia]. }
  split.
  { rewrite assigned_ToString by done.
    unfold size_of at 1. rewrite Nat2Z.id. f_equal. apply take_ge.
    pose proof (size_of_up_to_nul sv2). unfold size_of in *. lia. }
  intros i Hi. rewrite assigned_lookup_beyond by lia.
  apply assigned_lookup_copied; lia.
Qed.

Lemma Assign_shorter_keeps_old_bytes_witness :
  ∃ fs1 fs2, Assign Debug 8 (raw 8) (bytes_of "hello") = Done fs1 ∧
             Assign Debug 8 fs1 (bytes_of "hi") = Done fs2 ∧
             ToString fs2 = Done (up_to_nul (bytes_of "hi")) ∧
             ∀ i, (Z.to_nat (size_of (bytes_of "hi")) < i
                   < Z.to_nat (size_of (bytes_of "hello")))%nat →
                  Data fs2 !! i = bytes_of "hello" !! i.
Proof.
  apply (Assign_shorter_keeps_old_bytes Debug 8 (raw 8) (bytes_of "hello")
           (bytes_of "hi")).
  - lia.
  - by vm_compute.
  - reflexivity.
  - by vm_compute.
  - by vm_compute.
Defined.

(** After "hello" then "hi" the buffer reads 'h','i',NUL,'l','o',NUL. *)
Example Assign_hello_then_hi :
  (fs ← Assign Debug 8 (raw 8) (bytes_of "hello"); Assign Debug 8 fs (bytes_of "hi"))
  = Done {| Data := bytes_of "hi" ++ NUL :: bytes_of "lo" ++ NUL :: replicate 2 Byte.x78 |}.
Proof. reflexivity. Qed.

(** ** Accessors *)

(** X7: on a terminated buffer empty() and length() agree: empty() is true
    exactly when length() is 0, although one reads a single byte and the
    other scans. *)
Theorem empty_iff_length_zero (fs : FixedString) :
  NUL ∈ Data fs →
  ∃ L, length fs = Done L ∧ 0 ≤ L ∧ empty fs = Done (bool_decide (L = 0)).
Proof.
  intros Hin. destruct (cstring_at_exists _ Hin) as [s Hs].
  exists (size_of s). split; [by apply length_of_cstring|].
  split; [apply size_of_nonneg|].
  destruct Hs as [Hs [t Ht]]. unfold empty, load.
  rewrite decide_True by lia. rewrite Ht. change (Z.to_nat 0) with 0%nat.
  destruct s as [|c s]; [done|].
  apply not_elem_of_cons in Hs as [Hc _]. cbn [app lookup list_lookup].
  rewrite bind_Done. rewrite bool_decide_eq_false_2 by congruence.
  rewrite bool_decide_eq_false_2; [done|].
  rewrite size_of_cons. pose proof (size_of_nonneg s). lia.
Qed.

Lemma empty_iff_length_zero_witness :
  ∃ L, length (holding 8 "hi") = Done L ∧ 0 ≤ L ∧
       empty (holding 8 "hi") = Done (bool_decide (L = 0)).
Proof.
  apply (empty_iff_length_zero (holding 8 "hi")). vm_compute. do 2 right. left.
Defined.

(** X8: on an instance that satisfies the invariant the read accessors all
    describe one string: ToString(), the view conversion and the C string at
    c_str() or at the implicit pointer conversion have the same bytes,
    length() is their number, none of them is NUL and there are at most
    N-1. *)
Theorem accessors_agree N (fs : FixedString) :
  invariant N fs →
  ∃ s, ToString fs = Done s ∧
       to_string_view fs = Done s ∧
       view_of_cptr (c_str fs) = Done s ∧
       view_of_cptr (to_cptr fs) = Done s ∧
       length fs = Done (size_of s) ∧
       (NUL ∉ s) ∧ size_of s ≤ Capacity N - 1.
Proof.
  intros Hinv. destruct (invariant_cstring _ _ Hinv) as (s & Hs & Hlen).
  exists s. pose proof (ToString_of_cstring fs s Hs).
  repeat split; try done; try by apply length_of_cstring.
  apply Hs.
Qed.

Lemma accessors_agree_witness :
  ∃ s, ToString (holding 8 "hi") = Done s ∧
       to_string_view (holding 8 "hi") = Done s ∧
       view_of_cptr (c_str (holding 8 "hi")) = Done s ∧
       view_of_cptr (to_cptr (holding 8 "hi")) = Done s ∧
       length (holding 8 "hi") = Done (size_of s) ∧
       (NUL ∉ s) ∧ size_of s ≤ Capacity 8 - 1.
Proof. apply (accessors_agree 8 (holding 8 "hi")). invariant_at 2. Defined.

(** ** Comparison *)

(** X9: operator== between instances that satisfy the invariant (of any
    capacities) is an equivalence: reflexive, symmetric and transitive. *)
Theorem op_eq_equivalence N M K (a b c : FixedString) :
  invariant N a → invariant M b → invariant K c →
  op_eq a a = Done true ∧
  op_eq a b = op_eq b a ∧
  (op_eq a b = Done true → op_eq b c = Done true → op_eq a c = Done true).
Proof.
  intros Ha Hb Hc.
  apply invariant_cstring in Ha as (sa & Ha & _).
  apply invariant_cstring in Hb as (sb & Hb & _).
  apply invariant_cstring in Hc as (sc & Hc & _).
  rewrite (op_eq_cstring_r a sa Ha a sa Ha), (op_eq_cstring_r b sb Hb a sa Ha),
    (op_eq_cstring_r a sa Ha b sb Hb), (op_eq_cstring_r c sc Hc b sb Hb),
    (op_eq_cstring_r c sc Hc a sa Ha).
  split; [by rewrite bool_decide_eq_true_2|].
  split; [f_equal; apply bool_decide_ext; by split|].
  intros [= Hab%bool_decide_eq_true] [= Hbc%bool_decide_eq_true].
  rewrite bool_decide_eq_true_2; [done | congruence].
Qed.

Lemma op_eq_equivalence_witness :
  op_eq (holding 8 "hi") (holding 8 "hi") = Done true ∧
  op_eq (holding 8 "hi") (holding 32 "hi") = op_eq (holding 32 "hi") (holding 8 "hi") ∧
  op_eq (holding 8 "hi") (holding 16 "hi") = Done true.
Proof.
  destruct (op_eq_equivalence 8 32 16 (holding 8 "hi") (holding 32 "hi")
              (holding 16 "hi")) as (Hrefl & Hsym & Htrans).
  - invariant_at 2.
  - invariant_at 2.
  - invariant_at 2.
  - split; [exact Hrefl|]. split; [exact Hsym|]. apply Htrans; reflexivity.
Defined.

(** X10: the three overloads of operator== agree on instances that satisfy
    the invariant: comparing a with b gives the same answer as comparing a
    with the pointer b converts to, or with the view b converts to; the
    same holds for the three overloads of operator!=. *)
Theorem op_eq_overloads_agree N M (a b : FixedString) :
  invariant N a → invariant M b →
  op_eq_cptr a (to_cptr b) = op_eq a b ∧
  (v ← to_string_view b; op_eq_sv a v) = op_eq a b ∧
  op_ne_cptr a (to_cptr b) = op_ne a b ∧
  (v ← to_string_view b; op_ne_sv a v) = op_ne a b.
Proof.
  intros Ha Hb.
  apply invariant_cstring in Ha as (sa & Ha & _).
  apply invariant_cstring in Hb as (sb & Hb & _).
  unfold op_ne, op_ne_cptr, op_ne_sv, to_cptr.
  rewrite (op_eq_cptr_cstring a sa Ha _ sb Hb), (op_eq_cstring_r b sb Hb a sa Ha),
    (to_string_view_of_cstring b sb Hb), !bind_Done.
  unfold op_eq_sv. rewrite (to_string_view_of_cstring a sa Ha), !bind_Done.
  done.
Qed.

Lemma op_eq_overloads_agree_witness :
  op_eq_cptr (holding 8 "hi") (to_cptr (holding 32 "ho"))
    = op_eq (holding 8 "hi") (holding 32 "ho") ∧
  (v ← to_string_view (holding 32 "ho"); op_eq_sv (holding 8 "hi") v)
    = op_eq (holding 8 "hi") (holding 32 "ho") ∧
  op_ne_cptr (holding 8 "hi") (to_cptr (holding 32 "ho"))
    = op_ne (holding 8 "hi") (holding 32 "ho") ∧
  (v ← to_string_view (holding 32 "ho"); op_ne_sv (holding 8 "hi") v)
    = op_ne (holding 8 "hi") (holding 32 "ho").
Proof.
  apply (op_eq_overloads_agree 8 32 (holding 8 "hi") (holding 32 "ho")).
  - invariant_at 2.
  - invariant_at 2.
Defined.

(** X11: an instance that satisfies the invariant never compares equal to a
    view that holds a NUL byte or has N bytes or more: operator== on such a
    view is false and operator!= is true. *)
Theorem op_eq_sv_never_equal N (fs : FixedString) (sv : string_view) :
  invariant N fs → NUL ∈ sv ∨ N ≤ size_of sv →
  op_eq_sv fs sv = Done false ∧ op_ne_sv fs sv = Done true.
Proof.
  intros Hinv Hsv. destruct (invariant_cstring _ _ Hinv) as (s & Hs & Hlen).
  unfold op_ne_sv, op_eq_sv. rewrite (to_string_view_of_cstring fs s Hs), !bind_Done.
  rewrite bool_decide_eq_false_2; [done|].
  intros ->. destruct Hsv as [Hnul|Hbig]; [by apply Hs | lia].
Qed.

Lemma op_eq_sv_never_equal_witness :
  op_eq_sv (holding 8 "a") a_nul_b = Done false ∧
  op_ne_sv (holding 8 "a") a_nul_b = Done true.
Proof.
  apply (op_eq_sv_never_equal 8 (holding 8 "a") a_nul_b).
  - invariant_at 1.
  - left. vm_compute. right. left.
Defined.

(** X12: operator== against a non-null pointer to a terminated string
    compares the logical content of the instance with the bytes at the
    pointer up to their terminator; bytes after either terminator play no
    part.  operator!= is the negation. *)
Theorem op_eq_cptr_compares_content N (fs : FixedString) (m : list byte) :
  invariant N fs → NUL ∈ m →
  ∃ s, ToString fs = Done s ∧
       op_eq_cptr fs (Some m) = Done (bool_decide (s = up_to_nul m)) ∧
       op_ne_cptr fs (Some m) = Done (negb (bool_decide (s = up_to_nul m))).
Proof.
  intros Hinv Hm. destruct (invariant_cstring _ _ Hinv) as (s & Hs & _).
  exists s. split; [by apply ToString_of_cstring|].
  unfold op_ne_cptr.
  by rewrite (op_eq_cptr_cstring fs s Hs m _ (cstring_at_up_to_nul m Hm)).
Qed.

Lemma op_eq_cptr_compares_content_witness :
  ∃ s, ToString (holding 8 "hi") = Done s ∧
       op_eq_cptr (holding 8 "hi") (Some (Data (holding 32 "hi")))
         = Done (bool_decide (s = up_to_nul (Data (holding 32 "hi")))) ∧
       op_ne_cptr (holding 8 "hi") (Some (Data (holding 32 "hi")))
         = Done (negb (bool_decide (s = up_to_nul (Data (holding 32 "hi"))))).
Proof.
  apply (op_eq_cptr_compares_content 8 (holding 8 "hi") (Data (holding 32 "hi"))).
  - invariant_at 2.
  - vm_compute. do 2 right. left.
Defined.

(** ** What a release build stores *)

(** X13: in a release build Assign from any view stores the longest prefix
    of the view that holds no NUL byte and has at most N-1 bytes: that is
    the logical content afterwards, and length() is the smaller of N-1 and
    the offset of the first NUL of the view (its length when it has none). *)
Theorem Assign_Release_content N (self : FixedString) (sv : string_view) :
  0 < N → N ≤ SIZE_MAX → has_capacity N self →
  ∃ fs, Assign Release N self sv = Done fs ∧
        ToString fs = Done (take (Z.to_nat (N - 1)) (up_to_nul sv)) ∧
        length fs = Done (Z.min (N - 1) (size_of (up_to_nul sv))).
Proof.
  intros HN Hmax Hcap. pose proof (size_of_nonneg sv) as Hsv.
  pose proof (size_of_up_to_nul sv) as Hle.
  exists (assigned (Z.min (size_of sv) (N - 1)) self sv).
  split; [by apply Assign_Release|].
  pose proof (assigned_cstring (Z.min (size_of sv) (N - 1)) self sv) as Hc.
  rewrite up_to_nul_take in Hc.
  assert (take (Z.to_nat (Z.min (size_of sv) (N - 1))) (up_to_nul sv)
          = take (Z.to_nat (N - 1)) (up_to_nul sv)) as Heq.
  { destruct (decide (size_of sv ≤ N - 1)) as [Hfit|Hbig].
    - rewrite !take_ge; [done | |]; unfold size_of in *; lia.
    - do 2 f_equal. lia. }
  rewrite Heq in Hc.
  split; [by apply ToString_of_cstring|].
  rewrite (length_of_cstring _ _ Hc). f_equal. apply size_of_take_min. lia.
Qed.

Lemma Assign_Release_content_witness :
  ∃ fs, Assign Release 4 (raw 4) a_nul_cdef = Done fs ∧
        ToString fs = Done (take (Z.to_nat (4 - 1)) (up_to_nul a_nul_cdef)) ∧
        length fs = Done (Z.min (4 - 1) (size_of (up_to_nul a_nul_cdef))).
Proof.
  apply (Assign_Release_content 4 (raw 4) a_nul_cdef).
  - lia.
  - by vm_compute.
  - reflexivity.
Defined.

(** X14: after Assign from a view in a release build, the instance compares
    equal to that view exactly when nothing was lost: the view has fewer
    than N bytes and none of them is NUL. *)
Theorem Assign_then_compare N (self : FixedString) (sv : string_view) :
  0 < N → N ≤ SIZE_MAX → has_capacity N self →
  ∃ fs, Assign Release N self sv = Done fs ∧
        op_eq_sv fs sv = Done (bool_decide (size_of sv < N ∧ NUL ∉ sv)).
Proof.
  intros HN Hmax Hcap. pose proof (size_of_nonneg sv) as Hsv.
  exists (assigned (Z.min (size_of sv) (N - 1)) self sv).
  split; [by apply Assign_Release|].
  pose proof (assigned_cstring (Z.min (size_of sv) (N - 1)) self sv) as Hc.
  unfold op_eq_sv. rewrite (to_string_view_of_cstring _ _ Hc), bind_Done.
  f_equal. apply bool_decide_ext. split.
  - intros Heq. split.
    + apply (f_equal size_of) in Heq.
      pose proof (size_of_up_to_nul (take (Z.to_nat (Z.min (size_of sv) (N - 1))) sv)) as Hle.
      rewrite size_of_take_min in Hle by lia. lia.
    + rewrite <- Heq. apply up_to_nul_nul_free.
  - intros [Hfit Hnul].
    replace (Z.min (size_of sv) (N - 1)) with (size_of sv) by lia.
    by rewrite take_size_of, up_to_nul_id.
Qed.

Lemma Assign_then_compare_witness :
  ∃ fs, Assign Release 4 (raw 4) (bytes_of "abcdef") = Done fs ∧
        op_eq_sv fs (bytes_of "abcdef")
        = Done (bool_decide (size_of (bytes_of "abcdef") < 4 ∧ NUL ∉ bytes_of "abcdef")).
Proof.
  apply (Assign_then_compare 4 (raw 4) (bytes_of "abcdef")).
  - lia.
  - by vm_compute.
  - reflexivity.
Defined.

(** X15: in a release build the std::string overload and the view overload
    store the same logical content for every std::string, also one with NUL
    bytes or one that is too long: the two instances compare equal (only
    their bytes after the terminator may differ). *)
Theorem string_and_view_same_content N (self1 self2 : FixedString) (str : std_string) :
  0 < N → N ≤ SIZE_MAX → has_capacity N self1 → has_capacity N self2 →
  ∃ fs1 fs2, assign_string Release N self1 str = Done fs1 ∧
             assign_sv Release N self2 str = Done fs2 ∧
             ToString fs1 = ToString fs2 ∧
             op_eq fs1 fs2 = Done true.
Proof.
  intros HN Hmax Hcap1 Hcap2.
  pose proof (size_of_nonneg str). pose proof (size_of_nonneg (up_to_nul str)).
  exists (assigned (Z.min (size_of (up_to_nul str)) (N - 1)) self1 (up_to_nul str)),
         (assigned (Z.min (size_of str) (N - 1)) self2 str).
  split.
  { unfold assign_string. rewrite Assign_string_up_to_nul. by apply Assign_Release. }
  split; [by apply Assign_Release|].
  pose proof (assigned_cstring (Z.min (size_of (up_to_nul str)) (N - 1)) self1
                (up_to_nul str)) as Hc1.
  pose proof (assigned_cstring (Z.min (size_of str) (N - 1)) self2 str) as Hc2.
  rewrite up_to_nul_take, (up_to_nul_id (up_to_nul str)) in Hc1
    by apply up_to_nul_nul_free.
  rewrite up_to_nul_take in Hc2.
  assert (take (Z.to_nat (Z.min (size_of (up_to_nul str)) (N - 1))) (up_to_nul str)
          = take (Z.to_nat (Z.min (size_of str) (N - 1))) (up_to_nul str)) as Heq.
  { pose proof (size_of_up_to_nul str) as Hle.
    destruct (decide (size_of (up_to_nul str) ≤ N - 1)) as [Hfit|Hbig].
    - rewrite !take_ge; [done | |]; unfold size_of in *; lia.
    - do 2 f_equal. lia. }
  rewrite Heq in Hc1.
  rewrite (ToString_of_cstring _ _ Hc1), (ToString_of_cstring _ _ Hc2).
  split; [done|].
  rewrite (op_eq_cstring_r _ _ Hc2 _ _ Hc1). by rewrite bool_decide_eq_true_2.
Qed.

Lemma string_and_view_same_content_witness :
  ∃ fs1 fs2, assign_string Release 8 (raw 8) a_nul_b = Done fs1 ∧
             assign_sv Release 8 (raw 8) a_nul_b = Done fs2 ∧
             ToString fs1 = ToString fs2 ∧
             op_eq fs1 fs2 = Done true.
Proof.
  apply (string_and_view_same_content 8 (raw 8) (raw 8) a_nul_b).
  - lia.
  - by vm_compute.
  - reflexivity.
  - reflexivity.
Defined.

(** ** Default construction *)

(** X16: for N > 0 the default constructor zeroes all N bytes: the instance
    is empty, has length 0, converts to the empty string, equals the literal
    empty string and an instance built from the null pointer, and differs
    from the null pointer itself. *)
Theorem default_is_empty bm N (self self' : FixedString) :
  0 < N → has_capacity N self → has_capacity N self' →
  ∃ fs, FixedString_default N self = Done fs ∧
        has_capacity N fs ∧
        (∀ i, (i < Z.to_nat N)%nat → Data fs !! i = Some NUL) ∧
        empty fs = Done true ∧
        length fs = Done 0 ∧
        ToString fs = Done [] ∧
        op_eq_cptr fs (literal "") = Done true ∧
        op_eq_cptr fs None = Done false ∧
        (g ← FixedString_cptr bm N self' None; op_eq fs g) = Done true.
Proof.
  intros HN Hcap Hcap'. rewrite FixedString_default_zeroes by done.
  eexists. split; [done|].
  assert (∃ n, Z.to_nat N = S n) as [n Hn] by (exists (Z.to_nat (N - 1)); lia).
  rewrite Hn. cbn [replicate].
  pose proof (cstring_at_nil (replicate n NUL)) as Hc.
  split; [unfold has_capacity, size_of; cbn [Data List.length];
          rewrite length_replicate; lia|].
  split.
  { intros i Hi. cbn [Data]. change (NUL :: replicate n NUL) with (replicate (S n) NUL).
    by apply lookup_replicate_2. }
  split; [done|]. split; [done|]. split; [done|].
  split.
  { change (literal "") with (Some [NUL]).
    by rewrite (op_eq_cptr_cstring {| Data := NUL :: replicate n NUL |} [] Hc
                  _ [] (cstring_at_nil [])). }
  split; [done|].
  unfold FixedString_cptr. rewrite Assign_cptr_null, bind_Done by done.
  by rewrite (op_eq_cstring_r {| Data := NUL :: drop 1 (Data self') |} []
                (cstring_at_nil _) {| Data := NUL :: replicate n NUL |} [] Hc).
Qed.

Lemma default_is_empty_witness :
  ∃ fs, FixedString_default 8 (raw 8) = Done fs ∧
        has_capacity 8 fs ∧
        (∀ i, (i < Z.to_nat 8)%nat → Data fs !! i = Some NUL) ∧
        empty fs = Done true ∧
        length fs = Done 0 ∧
        ToString fs = Done [] ∧
        op_eq_cptr fs (literal "") = Done true ∧
        op_eq_cptr fs None = Done false ∧
        (g ← FixedString_cptr Debug 8 (raw 8) None; op_eq fs g) = Done true.
Proof.
  apply (default_is_empty Debug 8 (raw 8) (raw 8)).
  - lia.
  - reflexivity.
  - reflexivity.
Defined.

(** ** Converting between capacities *)

(** X17: an instance can be rebuilt in any capacity M that has room for its
    content: for s with length() = L < M, constructing a FixedString<M> from
    the view of s or from its C pointer returns normally in either build,
    both give the same object, and it satisfies the invariant, has the
    content of s and compares equal to s. *)
Theorem conversion_preserves_content bm N M (s self : FixedString) (L : Z) :
  0 < M → M ≤ SIZE_MAX → invariant N s → has_capacity M self →
  length s = Done L → L < M →
  ∃ v fs, to_string_view s = Done v ∧
          FixedString_sv bm M self v = Done fs ∧
          FixedString_cptr bm M self (c_str s) = Done fs ∧
          FixedString_cptr bm M self (to_cptr s) = Done fs ∧
          invariant M fs ∧
          ToString fs = Done v ∧
          op_eq fs s = Done true.
Proof.
  intros HM Hmax Hinv Hcap HL Hfit.
  destruct (invariant_cstring _ _ Hinv) as (v & Hv & _).
  rewrite (length_of_cstring s v Hv) in HL. injection HL as <-.
  pose proof (size_of_nonneg v). assert (NUL ∉ v) as Hnul by apply Hv.
  exists v, (assigned (size_of v) self v).
  pose proof (assigned_cstring (size_of v) self v) as Hc.
  rewrite take_size_of, up_to_nul_id in Hc by done.
  assert (Assign bm M self v = Done (assigned (size_of v) self v)) as Hrun
    by by apply Assign_fits.
  split; [by apply to_string_view_of_cstring|].
  split; [done|].
  assert (FixedString_cptr bm M self (c_str s) = Done (assigned (size_of v) self v))
    as Hptr.
  { unfold FixedString_cptr, Assign_cptr, c_str.
    by rewrite (view_of_cstring _ _ Hv), bind_Done. }
  split; [done|]. split; [done|].
  split; [apply assigned_invariant; [lia | lia | done | lia]|].
  split; [by apply ToString_of_cstring|].
  rewrite (op_eq_cstring_r _ _ Hv _ _ Hc). by rewrite bool_decide_eq_true_2.
Qed.

Lemma conversion_preserves_content_witness :
  ∃ v fs, to_string_view (holding 32 "hi") = Done v ∧
          FixedString_sv Debug 4 (raw 4) v = Done fs ∧
          FixedString_cptr Debug 4 (raw 4) (c_str (holding 32 "hi")) = Done fs ∧
          FixedString_cptr Debug 4 (raw 4) (to_cptr (holding 32 "hi")) = Done fs ∧
          invariant 4 fs ∧
          ToString fs = Done v ∧
          op_eq fs (holding 32 "hi") = Done true.
Proof.
  apply (conversion_preserves_content Debug 32 4 (holding 32 "hi") (raw 4) 2).
  - lia.
  - by vm_compute.
  - invariant_at 2.
  - reflexivity.
  - reflexivity.
  - lia.
Defined.

(** X18: rebuilding an instance in a capacity M that is too small for its
    content (length() = L >= M) halts on the truncation assertion in a debug
    build; a release build keeps the first M-1 bytes of the content, so the
    new instance has length M-1 and does not compare equal to the old
    one. *)
Theorem narrowing_truncates N M (s self : FixedString) (L : Z) :
  0 < M → M ≤ SIZE_MAX → invariant N s → has_capacity M self →
  length s = Done L → M ≤ L →
  FixedString_cptr Debug M self (c_str s)
    = AssertFail "FixedString: input will be truncated" ∧
  ∃ v fs, ToString s = Done v ∧
          FixedString_cptr Release M self (c_str s) = Done fs ∧
          invariant M fs ∧
          ToString fs = Done (take (Z.to_nat (M - 1)) v) ∧
          length fs = Done (M - 1) ∧
          op_eq fs s = Done false.
Proof.
  intros HM Hmax Hinv Hcap HL Hbig.
  destruct (invariant_cstring _ _ Hinv) as (v & Hv & _).
  rewrite (length_of_cstring s v Hv) in HL. injection HL as <-.
  assert (NUL ∉ v) as Hnul by apply Hv.
  assert (∀ bm, FixedString_cptr bm M self (c_str s) = Assign bm M self v) as Hptr.
  { intros bm. unfold FixedString_cptr, Assign_cptr, c_str.
    by rewrite (view_of_cstring _ _ Hv), bind_Done. }
  rewrite !Hptr. split; [by apply Assign_Debug_truncating|].
  exists v, (assigned (M - 1) self v).
  pose proof (assigned_cstring (M - 1) self v) as Hc.
  rewrite up_to_nul_take, up_to_nul_id in Hc by done.
  split; [by apply ToString_of_cstring|].
  split; [rewrite Assign_Release by done; do 2 f_equal; lia|].
  split; [apply assigned_invariant; [lia | lia | done | lia]|].
  split; [by apply ToString_of_cstring|].
  split.
  { rewrite (length_of_cstring _ _ Hc). f_equal. apply size_of_take; lia. }
  rewrite (op_eq_cstring_r _ _ Hv _ _ Hc). rewrite bool_decide_eq_false_2; [done|].
  intros Heq. apply (f_equal size_of) in Heq.
  rewrite size_of_take in Heq by lia. lia.
Qed.

Lemma narrowing_truncates_witness :
  FixedString_cptr Debug 4 (raw 4) (c_str (holding 8 "hello"))
    = AssertFail "FixedString: input will be truncated" ∧
  ∃ v fs, ToString (holding 8 "hello") = Done v ∧
          FixedString_cptr Release 4 (raw 4) (c_str (holding 8 "hello")) = Done fs ∧
          invariant 4 fs ∧
          ToString fs = Done (take (Z.to_nat (4 - 1)) v) ∧
          length fs = Done (4 - 1) ∧
          op_eq fs (holding 8 "hello") = Done false.
Proof.
  apply (narrowing_truncates 8 4 (holding 8 "hello") (raw 4) 5).
  - lia.
  - by vm_compute.
  - invariant_at 5.
  - reflexivity.
  - reflexivity.
  - lia.
Defined.

(** ** Concatenation *)



(** X20: the sum of two instances can be stored back: for instances a and b
    of lengths La and Lb and a capacity K > La + Lb, constructing a
    FixedString<K> from a + b returns normally in either build, and the new
    instance satisfies the invariant, holds the content of a followed by
    that of b, and has length La + Lb. *)
Theorem construct_from_concatenation bm N M K (a b self : FixedString) (La Lb : Z) :
  0 < K → K ≤ SIZE_MAX → invariant N a → invariant M b → has_capacity K self →
  length a = Done La → length b = Done Lb → La + Lb < K →
  ∃ sa sb fs, ToString a = Done sa ∧ ToString b = Done sb ∧
              plus_fs_fs a b = Done (sa ++ sb) ∧
              FixedString_string bm K self (sa ++ sb) = Done fs ∧
              invariant K fs ∧
              ToString fs = Done (sa ++ sb) ∧
              length fs = Done (La + Lb).
Proof.
  intros HK Hmax Ha Hb Hcap HLa HLb Hfit.
  apply invariant_cstring in Ha as (sa & Ha & _).
  apply invariant_cstring in Hb as (sb & Hb & _).
  rewrite (length_of_cstring a sa Ha) in HLa. injection HLa as <-.
  rewrite (length_of_cstring b sb Hb) in HLb. injection HLb as <-.
  assert (NUL ∉ sa ++ sb) as Hnul.
  { rewrite elem_of_app. intros [?|?]; [by apply Ha | by apply Hb]. }
  pose proof (size_of_nonneg (sa ++ sb)). rewrite <- size_of_app in *.
  exists sa, sb, (assigned (size_of (sa ++ sb)) self (sa ++ sb)).
  pose proof (assigned_cstring (size_of (sa ++ sb)) self (sa ++ sb)) as Hc.
  rewrite take_size_of, up_to_nul_id in Hc by done.
  split; [by apply ToString_of_cstring|].
  split; [by apply ToString_of_cstring|].
  split.
  { unfold plus_fs_fs, c_str.
    by rewrite (string_of_cstring _ _ Ha), bind_Done, (string_append_cstring _ _ _ Hb). }
  split.
  { unfold FixedString_string. rewrite Assign_string_up_to_nul, up_to_nul_id by done.
    by apply Assign_fits. }
  split; [apply assigned_invariant; [lia | lia | done | lia]|].
  split; [by apply ToString_of_cstring | by apply length_of_cstring].
Qed.

Lemma construct_from_concatenation_witness :
  ∃ sa sb fs, ToString (holding 8 "ab") = Done sa ∧
              ToString (holding 32 "cd") = Done sb ∧
              plus_fs_fs (holding 8 "ab") (holding 32 "cd") = Done (sa ++ sb) ∧
              FixedString_string Debug 8 (raw 8) (sa ++ sb) = Done fs ∧
              invariant 8 fs ∧
              ToString fs = Done (sa ++ sb) ∧
              length fs = Done (2 + 2).
Proof.
  apply (construct_from_concatenation Debug 8 32 8 (holding 8 "ab")
           (holding 32 "cd") (raw 8) 2 2).
  - lia.
  - by vm_compute.
  - invariant_at 2.
  - invariant_at 2.
  - reflexivity.
  - reflexivity.
  - reflexivity.
  - lia.
Defined.

(** ** The truncation check of the std::string overloads *)

(** X21: in a debug build the std::string constructor and assignment
    operator check the length up to the first NUL byte of the string, not
    its size(): they halt on the truncation assertion exactly when that
    prefix has N bytes or more, and otherwise store that prefix, whatever
    the size of the string. *)
Theorem assign_string_checks_c_str_length N (self : FixedString) (str : std_string) :
  0 < N → N ≤ SIZE_MAX → has_capacity N self →
  (size_of (up_to_nul str) < N →
   ∃ fs, assign_string Debug N self str = Done fs ∧
         FixedString_string Debug N self str = Done fs ∧
         ToString fs = Done (up_to_nul str)) ∧
  (N ≤ size_of (up_to_nul str) →
   assign_string Debug N self str
     = AssertFail "FixedString: input will be truncated" ∧
   FixedString_string Debug N self str
     = AssertFail "FixedString: input will be truncated").
Proof.
  intros HN Hmax Hcap. unfold assign_string, FixedString_string.
  rewrite Assign_string_up_to_nul. split.
  - intros Hfit. exists (assigned (size_of (up_to_nul str)) self (up_to_nul str)).
    pose proof (assigned_cstring (size_of (up_to_nul str)) self (up_to_nul str)) as Hc.
    rewrite take_size_of, (up_to_nul_id (up_to_nul str)) in Hc
      by apply up_to_nul_nul_free.
    rewrite Assign_fits by done.
    split; [done|]. split; [done | by apply ToString_of_cstring].
  - intros Hbig. by rewrite Assign_Debug_truncating.
Qed.

Lemma assign_string_checks_c_str_length_witness :
  (∃ fs, assign_string Debug 4 (raw 4) a_nul_cdef = Done fs ∧
         FixedString_string Debug 4 (raw 4) a_nul_cdef = Done fs ∧
         ToString fs = Done (up_to_nul a_nul_cdef)) ∧
  assign_string Debug 4 (raw 4) (bytes_of "abcdef")
    = AssertFail "FixedString: input will be truncated".
Proof.
  split.
  - apply (assign_string_checks_c_str_length 4 (raw 4) a_nul_cdef).
    + lia.
    + by vm_compute.
    + reflexivity.
    + by vm_compute.
  - apply (assign_string_checks_c_str_length 4 (raw 4) (bytes_of "abcdef")).
    + lia.
    + by vm_compute.
    + reflexivity.
    + by vm_compute.
Defined.
